(** * chapter2.js: the SIMPLE language, three ways

    A shallow embedding of [src/chapter2.js]: the node classes of the toy
    imperative language with their small-step [reduce], big-step
    [evaluate] and [toJs] translation, and the [Machine] that drives
    [reduce].

    Modelling conventions.
    - JavaScript numbers are modelled as unbounded integers plus NaN (the
      node constructors receive integers; rounding of doubles beyond 2^53,
      infinities and the sign of zero are not represented).
    - Node objects are never mutated after construction, so they are
      modelled as values of an inductive type; environments are mutated in
      place by [merge], so they live in a store and are passed by
      reference.
    - An environment object is modelled by its own properties: names that
      resolve through [Object.prototype] (such as [__proto__]) are not
      represented.
    - A thrown JavaScript exception is an outcome of its own; the loops and
      recursions that need not terminate take a fuel argument.
    - [console.log] tracing is not modelled. *)

From stdpp Require Import base option gmap strings.
From Stdlib Require Import Ascii ZArith DecimalString Lia.

Open Scope Z_scope.

(** ** Outcomes of running JavaScript code *)

(** The only exception the code of chapter2.js can raise is the engine's
    own [TypeError] (a property read on [undefined], a call of something
    that is not a function, a property write on a primitive in strict
    mode). *)
Inductive error : Type :=
| TypeError.

Inductive outcome (A : Type) : Type :=
| Ok (a : A)
| Throw (err : error)
| OutOfFuel.

Arguments Ok {A} a.
Arguments Throw {A} err.
Arguments OutOfFuel {A}.

#[global] Instance outcome_ret : MRet outcome := λ A a, Ok a.

#[global] Instance outcome_bind : MBind outcome := λ A B f m,
  match m with
  | Ok a => f a
  | Throw err => Throw err
  | OutOfFuel => OutOfFuel
  end.

(** ** Primitive values and the operators [+], [*], [<], [===] *)

Inductive prim : Type :=
| PUndefined
| PNum (z : Z)
| PNaN
| PBool (b : bool).

#[global] Instance prim_eq_dec : EqDecision prim.
Proof. solve_decision. Defined.

(** ToNumber on the primitives above; [None] stands for NaN. *)
Definition to_number (p : prim) : option Z :=
  match p with
  | PUndefined => None
  | PNum z => Some z
  | PNaN => None
  | PBool true => Some 1
  | PBool false => Some 0
  end.

Definition of_number (n : option Z) : prim :=
  match n with
  | Some z => PNum z
  | None => PNaN
  end.

(** [a + b] when neither operand is a string or an object. *)
Definition js_add (a b : prim) : prim :=
  of_number (x ← to_number a; y ← to_number b; Some (x + y)).

(** [a * b]. *)
Definition js_mul (a b : prim) : prim :=
  of_number (x ← to_number a; y ← to_number b; Some (x * y)).

(** [a < b]: a comparison with NaN is false. *)
Definition js_lt (a b : prim) : prim :=
  match to_number a, to_number b with
  | Some x, Some y => PBool (x <? y)
  | _, _ => PBool false
  end.

(** [p === true] and [p === false]. *)
Definition strict_eq_true (p : prim) : bool :=
  match p with PBool true => true | _ => false end.

Definition strict_eq_false (p : prim) : bool :=
  match p with PBool false => true | _ => false end.

(** ToBoolean, as applied by [if (...)] and [while (...)]. *)
Definition to_boolean (p : prim) : bool :=
  match p with
  | PUndefined => false
  | PNum z => negb (z =? 0)
  | PNaN => false
  | PBool b => b
  end.

(** ** Values found in an expression position

    [Struct.new] builds classes whose fields take whatever the constructor
    is given, and [Variable.reduce] puts [env[name]] into the tree, so an
    operand may be a primitive (in particular [undefined]) as well as a
    node.  The classes [Add] and [Variable] are spelled [Add_] and
    [Variable_]: their names are reserved words of the vernacular. *)
Inductive val : Type :=
| VPrim (p : prim)
| Number (value : prim)
| Boolean (value : prim)
| Variable_ (name : string)
| Add_ (left right : val)
| Multiply (left right : val)
| LessThan (left right : val).

#[global] Instance val_eq_dec : EqDecision val.
Proof. solve_decision. Defined.

Abbreviation undefined := (VPrim PUndefined).

(** ** The store of environment objects *)

Definition loc := positive.

Bind Scope positive_scope with loc.

(** What a variable holding an environment may contain: an object, or
    [undefined] after a statement fell through without returning. *)
Inductive envref : Type :=
| EnvUndefined
| EnvRef (l : loc).

#[global] Instance envref_eq_dec : EqDecision envref.
Proof. solve_decision. Defined.

Abbreviation heap V := (gmap loc (gmap string V)).

(** The own properties of the object at [l].  A reference always points
    to an object; an address the store does not hold reads as the empty
    object. *)
Definition own_properties {V} (h : heap V) (l : loc) : gmap string V :=
  default ∅ (h !! l).

(** [obj[key]]: a missing property reads as [undefined]; reading a
    property of [undefined] throws.  Own properties only: the model is
    the code for a key that the object has itself, or that
    [Object.prototype] does not have either (see [inherited] below). *)
Definition get_property {V} (undef : V) (h : heap V) (obj : envref)
    (key : string) : outcome V :=
  match obj with
  | EnvUndefined => Throw TypeError
  | EnvRef l => Ok (default undef (own_properties h l !! key))
  end.

(** [obj[key] = v], in place.  The model is the code for every key but
    [__proto__], which is an accessor of [Object.prototype]: writing it
    replaces the prototype and adds no property. *)
Definition set_property {V} (h : heap V) (obj : envref) (key : string)
    (v : V) : outcome (heap V) :=
  match obj with
  | EnvUndefined => Throw TypeError
  | EnvRef l => Ok (<[l := <[key := v]> (own_properties h l)]> h)
  end.

(** [function merge(obj, key, val) { obj[key] = val; return obj; }] *)
Definition merge (h : heap val) (obj : envref) (key : string) (v : val)
    : outcome (envref * heap val) :=
  h' ← set_property h obj key v; Ok (obj, h').

(** ** Expressions: [reducible], [reduce], [evaluate] *)

(** [v.reducible()]: a primitive has no such method. *)
Definition reducible (v : val) : outcome bool :=
  match v with
  | VPrim _ => Throw TypeError
  | Number _ | Boolean _ => Ok false
  | Variable_ _ | Add_ _ _ | Multiply _ _ | LessThan _ _ => Ok true
  end.

(** [v.value]: only [Number] and [Boolean] have the field. *)
Definition get_value (v : val) : outcome prim :=
  match v with
  | VPrim PUndefined => Throw TypeError
  | VPrim _ => Ok PUndefined
  | Number value | Boolean value => Ok value
  | Variable_ _ | Add_ _ _ | Multiply _ _ | LessThan _ _ => Ok PUndefined
  end.

(** The body shared by [Add.reduce], [Multiply.reduce] and
    [LessThan.reduce]: [node] rebuilds the same class, [result] is the
    literal built when both operands are irreducible. *)
Definition reduce_operands (reduce : val → outcome val)
    (node : val → val → val) (result : prim → prim → val)
    (l r : val) : outcome val :=
  bl ← reducible l;
  if bl : bool then
    l' ← reduce l; Ok (node l' r)
  else
    br ← reducible r;
    if br : bool then
      r' ← reduce r; Ok (node l r')
    else
      a ← get_value l; b ← get_value r; Ok (result a b).

Fixpoint reduce (h : heap val) (env : envref) (e : val) : outcome val :=
  match e with
  | VPrim _ | Number _ | Boolean _ => Throw TypeError
  | Variable_ name => get_property undefined h env name
  | Add_ l r =>
      reduce_operands (reduce h env) Add_
        (λ a b, Number (js_add a b)) l r
  | Multiply l r =>
      reduce_operands (reduce h env) Multiply
        (λ a b, Number (js_mul a b)) l r
  | LessThan l r =>
      reduce_operands (reduce h env) LessThan
        (λ a b, Boolean (js_lt a b)) l r
  end.

(** The body shared by the three binary [evaluate] methods:
    [left.evaluate(env).value op right.evaluate(env).value]. *)
Definition evaluate_operands (evaluate : val → outcome val)
    (result : prim → prim → val) (l r : val) : outcome val :=
  vl ← evaluate l; a ← get_value vl;
  vr ← evaluate r; b ← get_value vr;
  Ok (result a b).

Fixpoint evaluate (h : heap val) (env : envref) (e : val) : outcome val :=
  match e with
  | VPrim _ => Throw TypeError
  | Number _ | Boolean _ => Ok e
  | Variable_ name => get_property undefined h env name
  | Add_ l r =>
      evaluate_operands (evaluate h env) (λ a b, Number (js_add a b))
        l r
  | Multiply l r =>
      evaluate_operands (evaluate h env) (λ a b, Number (js_mul a b))
        l r
  | LessThan l r =>
      evaluate_operands (evaluate h env) (λ a b, Boolean (js_lt a b))
        l r
  end.

(** The source drives [reduce] for statements only ([Machine.run]); this
    is the same loop for an expression, [while (e.reducible())
    e = e.reduce(env)], as the specification describes it. *)
Fixpoint reduce_until_irreducible (fuel : nat) (h : heap val) (env : envref)
    (e : val) : outcome val :=
  b ← reducible e;
  if b : bool then
    match fuel with
    | O => OutOfFuel
    | S fuel' =>
        e' ← reduce h env e; reduce_until_irreducible fuel' h env e'
    end
  else Ok e.

(** ** Statements: [reducible], [reduce], [evaluate]

    A statement position holds a statement; an expression position holds
    an expression node or, after a reduction, whatever the environment
    held. *)

Inductive stmt : Type :=
| DoNothing
| Assign (name : string) (expression : val)
| If (condition : val) (consequence alternative : stmt)
| Sequence (first second : stmt)
| While (condition : val) (body : stmt).

#[global] Instance stmt_eq_dec : EqDecision stmt.
Proof. solve_decision. Defined.

Definition reducible_s (s : stmt) : bool :=
  match s with
  | DoNothing => false
  | Assign _ _ | If _ _ _ | Sequence _ _ | While _ _ => true
  end.

(** A statement's [reduce] returns the array [[statement, env]], or
    nothing at all ([None]) when [If.reduce] falls off its end; the store
    is returned next to it.  [DoNothing] has no [reduce] method. *)
Fixpoint reduce_s (h : heap val) (env : envref) (s : stmt)
    : outcome (option (stmt * envref) * heap val) :=
  match s with
  | DoNothing => Throw TypeError
  | Assign name expression =>
      b ← reducible expression;
      if b : bool then
        expression' ← reduce h env expression;
        Ok (Some (Assign name expression', env), h)
      else
        '(env', h') ← merge h env name expression;
        Ok (Some (DoNothing, env'), h')
  | If condition consequence alternative =>
      b ← reducible condition;
      if b : bool then
        condition' ← reduce h env condition;
        Ok (Some (If condition' consequence alternative, env), h)
      else
        p ← get_value condition;
        if strict_eq_true p then Ok (Some (consequence, env), h)
        else if strict_eq_false p then Ok (Some (alternative, env), h)
        else Ok (None, h)
  | Sequence first second =>
      match first with
      | DoNothing => Ok (Some (second, env), h)
      | _ =>
          '(reduced, h') ← reduce_s h env first;
          match reduced with
          | None => Throw TypeError
          | Some (first', env') => Ok (Some (Sequence first' second, env'), h')
          end
      end
  | While condition body =>
      Ok (Some (If condition (Sequence body (While condition body)) DoNothing,
                env), h)
  end.

(** The recursion of [While.evaluate], one unit of fuel per call. *)
Fixpoint while_evaluate (fuel : nat)
    (condition : heap val → envref → outcome val)
    (body : heap val → envref → outcome (envref * heap val))
    (h : heap val) (env : envref) : outcome (envref * heap val) :=
  match fuel with
  | O => OutOfFuel
  | S fuel' =>
      ret ← condition h env;
      p ← get_value ret;
      if strict_eq_true p then
        '(env', h') ← body h env;
        while_evaluate fuel' condition body h' env'
      else if strict_eq_false p then Ok (env, h)
      else Ok (EnvUndefined, h)
  end.

Fixpoint evaluate_s (fuel : nat) (s : stmt) (h : heap val) (env : envref)
    {struct s} : outcome (envref * heap val) :=
  match s with
  | DoNothing => Ok (env, h)
  | Assign name expression =>
      v ← evaluate h env expression; merge h env name v
  | If condition consequence alternative =>
      ret ← evaluate h env condition;
      p ← get_value ret;
      if strict_eq_true p then evaluate_s fuel consequence h env
      else if strict_eq_false p then evaluate_s fuel alternative h env
      else Ok (EnvUndefined, h)
  | Sequence first second =>
      '(env', h') ← evaluate_s fuel first h env;
      evaluate_s fuel second h' env'
  | While condition body =>
      while_evaluate fuel (λ h env, evaluate h env condition)
        (evaluate_s fuel body) h env
  end.

(** ** The machine *)

Record Machine : Type := { statement : stmt; env : envref }.

(** [Machine.step]: indexing the missing result of a fallen-through
    [reduce] throws. *)
Definition step (m : Machine) (h : heap val) : outcome (Machine * heap val) :=
  '(reduced, h') ← reduce_s h (env m) (statement m);
  match reduced with
  | None => Throw TypeError
  | Some (s, e) => Ok ({| statement := s; env := e |}, h')
  end.

(** [Machine.run]: the fuel bounds the number of iterations of its loop. *)
Fixpoint run (fuel : nat) (m : Machine) (h : heap val)
    : outcome (Machine * heap val) :=
  if reducible_s (statement m) then
    match fuel with
    | O => OutOfFuel
    | S fuel' => '(m', h') ← step m h; run fuel' m' h'
    end
  else Ok (m, h).

(** [n] calls of [step] in a row. *)
Fixpoint steps (n : nat) (m : Machine) (h : heap val)
    : outcome (Machine * heap val) :=
  match n with
  | O => Ok (m, h)
  | S n' => '(m', h') ← step m h; steps n' m' h'
  end.

(** ** Translation to JavaScript closures

    [toJs] returns the text of a function expression; the model gives the
    function that [eval] makes of that text.  The text reads and writes
    the variable [name] as [e.name], so the model stands for the emitted
    text when the names are identifier names ([identifier_names] and
    [identifier_names_s] below); for other names the text is other code,
    or no code at all.  The emitted functions work on primitives ([1],
    [true]), not on [Number] and [Boolean] nodes. *)

Definition jsfun_e : Type := heap prim → envref → outcome prim.

Definition jsfun_s : Type :=
  nat → heap prim → envref → outcome (envref * heap prim).

(** [(function(e) { return L(e) op R(e); })] *)
Definition toJs_operands (toJs : val → outcome jsfun_e)
    (op : prim → prim → prim) (l r : val) : outcome jsfun_e :=
  fl ← toJs l; fr ← toJs r;
  Ok ((λ h e, a ← fl h e; b ← fr h e; Ok (op a b)) : jsfun_e).

Fixpoint toJs (v : val) : outcome jsfun_e :=
  match v with
  | VPrim _ => Throw TypeError
  | Number value => Ok ((λ _ _, Ok value) : jsfun_e)
  | Boolean value => Ok ((λ _ _, Ok value) : jsfun_e)
  | Variable_ name =>
      Ok ((λ h e, get_property PUndefined h e name) : jsfun_e)
  | Add_ l r => toJs_operands toJs js_add l r
  | Multiply l r => toJs_operands toJs js_mul l r
  | LessThan l r => toJs_operands toJs js_lt l r
  end.

(** [while (C(e)) { e = B(e); } return e;] *)
Fixpoint js_while (fuel : nat) (C : jsfun_e)
    (B : heap prim → envref → outcome (envref * heap prim))
    (h : heap prim) (e : envref) : outcome (envref * heap prim) :=
  match fuel with
  | O => OutOfFuel
  | S fuel' =>
      c ← C h e;
      if to_boolean c then
        '(e', h') ← B h e; js_while fuel' C B h' e'
      else Ok (e, h)
  end.

Fixpoint toJs_s (s : stmt) : outcome jsfun_s :=
  match s with
  | DoNothing => Ok ((λ _ h e, Ok (e, h)) : jsfun_s)
  | Assign name expression =>
      fx ← toJs expression;
      Ok ((λ _ h e, v ← fx h e; h' ← set_property h e name v; Ok (e, h'))
          : jsfun_s)
  | If condition consequence alternative =>
      fc ← toJs condition;
      fa ← toJs_s consequence;
      fb ← toJs_s alternative;
      Ok ((λ fuel h e,
             c ← fc h e;
             if to_boolean c then fa fuel h e else fb fuel h e) : jsfun_s)
  | Sequence first second =>
      f2 ← toJs_s second;
      f1 ← toJs_s first;
      Ok ((λ fuel h e, '(e', h') ← f1 fuel h e; f2 fuel h' e') : jsfun_s)
  | While condition body =>
      fc ← toJs condition;
      fb ← toJs_s body;
      Ok ((λ fuel h e, js_while fuel fc (fb fuel) h e) : jsfun_s)
  end.

(** [eval(v.toJs())(e)] and [eval(s.toJs())(e)]. *)
Definition compiled (v : val) (h : heap prim) (e : envref) : outcome prim :=
  f ← toJs v; f h e.

Definition compiled_s (s : stmt) (fuel : nat) (h : heap prim) (e : envref)
    : outcome (envref * heap prim) :=
  f ← toJs_s s; f fuel h e.

(** ** Environments, types and identifier names

    None of this is in the source; it states what the specification calls
    an environment (a mapping from names to [Number] and [Boolean] nodes)
    and a well-typed node. *)

Definition is_literal (v : val) : bool :=
  match v with
  | Number _ | Boolean _ => true
  | VPrim _ | Variable_ _ | Add_ _ _ | Multiply _ _ | LessThan _ _ => false
  end.

(** The object at [l] binds every name it has to a literal node. *)
Definition environment (h : heap val) (l : loc) : Prop :=
  map_Forall (λ _ v, is_literal v = true) (own_properties h l).

Inductive ty : Type :=
| TNumber
| TBoolean.

Definition literal_of (t : ty) (v : val) : bool :=
  match t, v with
  | TNumber, Number (PNum _) => true
  | TBoolean, Boolean (PBool _) => true
  | _, _ => false
  end.

Definition binds (h : heap val) (l : loc) (name : string) (t : ty) : bool :=
  match own_properties h l !! name with
  | Some v => literal_of t v
  | None => false
  end.

(** The object at [l] binds every name of [Γ] to a literal of its type. *)
Definition env_has_types (Γ : gmap string ty) (h : heap val) (l : loc)
    : Prop :=
  map_Forall (λ name t, binds h l name t = true) Γ.

Inductive has_type (Γ : gmap string ty) : val → ty → Prop :=
| T_Number z : has_type Γ (Number (PNum z)) TNumber
| T_Boolean b : has_type Γ (Boolean (PBool b)) TBoolean
| T_Variable name t :
    Γ !! name = Some t → has_type Γ (Variable_ name) t
| T_Add l r :
    has_type Γ l TNumber → has_type Γ r TNumber →
    has_type Γ (Add_ l r) TNumber
| T_Multiply l r :
    has_type Γ l TNumber → has_type Γ r TNumber →
    has_type Γ (Multiply l r) TNumber
| T_LessThan l r :
    has_type Γ l TNumber → has_type Γ r TNumber →
    has_type Γ (LessThan l r) TBoolean.

(** [stmt_type Γ s Γ']: under variables typed by [Γ], the statement [s]
    is well typed and leaves variables typed by [Γ']. *)
Inductive stmt_type : gmap string ty → stmt → gmap string ty → Prop :=
| T_DoNothing Γ : stmt_type Γ DoNothing Γ
| T_Assign Γ name e t :
    has_type Γ e t → stmt_type Γ (Assign name e) (<[name := t]> Γ)
| T_If Γ Γ' c a b :
    has_type Γ c TBoolean → stmt_type Γ a Γ' → stmt_type Γ b Γ' →
    stmt_type Γ (If c a b) Γ'
| T_Sequence Γ Γ1 Γ2 a b :
    stmt_type Γ a Γ1 → stmt_type Γ1 b Γ2 → stmt_type Γ (Sequence a b) Γ2
| T_While Γ c b :
    has_type Γ c TBoolean → stmt_type Γ b Γ → stmt_type Γ (While c b) Γ
| T_Sub Γ Γ0 Γ1 Γ' s :
    Γ0 ⊆ Γ → stmt_type Γ0 s Γ1 → Γ' ⊆ Γ1 → stmt_type Γ s Γ'.

(** Names that can follow [e.] in the emitted text: ASCII identifier
    names, [__proto__] apart. *)
Definition identifier_start (c : ascii) : bool :=
  let n := nat_of_ascii c in
  ((65 <=? n) && (n <=? 90) || (97 <=? n) && (n <=? 122)
   || (n =? 95) || (n =? 36))%nat.

Definition identifier_part (c : ascii) : bool :=
  let n := nat_of_ascii c in
  (identifier_start c || (48 <=? n) && (n <=? 57))%nat.

Fixpoint all_chars (P : ascii → bool) (s : string) : bool :=
  match s with
  | EmptyString => true
  | String c s' => P c && all_chars P s'
  end.

Definition identifier_name (s : string) : bool :=
  match s with
  | EmptyString => false
  | String c s' =>
      identifier_start c && all_chars identifier_part s'
      && negb (String.eqb s "__proto__")
  end.

Fixpoint identifier_names (e : val) : bool :=
  match e with
  | VPrim _ | Number _ | Boolean _ => true
  | Variable_ name => identifier_name name
  | Add_ l r | Multiply l r | LessThan l r =>
      identifier_names l && identifier_names r
  end.

Fixpoint identifier_names_s (s : stmt) : bool :=
  match s with
  | DoNothing => true
  | Assign name e => identifier_name name && identifier_names e
  | If c a b =>
      identifier_names c && identifier_names_s a && identifier_names_s b
  | Sequence a b => identifier_names_s a && identifier_names_s b
  | While c b => identifier_names c && identifier_names_s b
  end.

(** The names that every object inherits from [Object.prototype]: read
    on an object that does not have them itself, they do not give
    [undefined]. *)
Definition Object_prototype_names : list string :=
  [ "constructor"; "toString"; "toLocaleString"; "valueOf";
    "hasOwnProperty"; "isPrototypeOf"; "propertyIsEnumerable";
    "__defineGetter__"; "__defineSetter__"; "__lookupGetter__";
    "__lookupSetter__"; "__proto__" ].

Definition inherited (s : string) : bool :=
  bool_decide (s ∈ Object_prototype_names).

(** An ASCII identifier name that [Object.prototype] does not have. *)
Definition plain_name (s : string) : bool :=
  identifier_name s && negb (inherited s).

Fixpoint plain_names (e : val) : bool :=
  match e with
  | VPrim _ | Number _ | Boolean _ => true
  | Variable_ name => plain_name name
  | Add_ l r | Multiply l r | LessThan l r => plain_names l && plain_names r
  end.

(** [e] is built from the six expression classes, and the object at [l]
    binds each of its variables to a literal node. *)
Fixpoint closed (h : heap val) (l : loc) (e : val) : bool :=
  match e with
  | VPrim _ => false
  | Number _ | Boolean _ => true
  | Variable_ name =>
      match own_properties h l !! name with
      | Some v => is_literal v
      | None => false
      end
  | Add_ a b | Multiply a b | LessThan a b => closed h l a && closed h l b
  end.

(** The primitive a literal node stands for, and the store of the
    emitted code that corresponds to a store of nodes. *)
Definition raw_value (v : val) : prim :=
  match v with
  | VPrim p | Number p | Boolean p => p
  | Variable_ _ | Add_ _ _ | Multiply _ _ | LessThan _ _ => PUndefined
  end.

Definition raw_heap (h : heap val) : heap prim :=
  (λ o : gmap string val, raw_value <$> o) <$> h.

Definition raw_outcome (o : outcome (envref * heap val))
    : outcome (envref * heap prim) :=
  match o with
  | Ok (e, h) => Ok (e, raw_heap h)
  | Throw err => Throw err
  | OutOfFuel => OutOfFuel
  end.

(** A function [f] of the emitted code does on the store of primitives
    what the statement function [g] does on the store of nodes, from every
    environment at [l] typed by [Γ]; and [g] returns that environment
    object, then typed by [Γ']. *)
Definition agrees (l : loc) (Γ Γ' : gmap string ty)
    (f : heap prim → envref → outcome (envref * heap prim))
    (g : heap val → envref → outcome (envref * heap val)) : Prop :=
  ∀ h, environment h l → env_has_types Γ h l →
    f (raw_heap h) (EnvRef l) = raw_outcome (g h (EnvRef l))
    ∧ ∀ env' h', g h (EnvRef l) = Ok (env', h') →
        env' = EnvRef l ∧ environment h' l ∧ env_has_types Γ' h' l.

(** The number of [reduce] calls an expression takes. *)
Fixpoint reductions (e : val) : nat :=
  match e with
  | VPrim _ | Number _ | Boolean _ => 0
  | Variable_ _ => 1
  | Add_ l r | Multiply l r | LessThan l r =>
      S (reductions l + reductions r)
  end.

(** ** The sample programs of the source file *)

Definition x : string := "x".
Definition y : string := "y".
Definition z : string := "z".

(** The environment object of a sample lives at address 1. *)
Definition at_1 {V} (o : gmap string V) : heap V := {[ 1%positive := o ]}.

Definition machine (s : stmt) : Machine :=
  {| statement := s; env := EnvRef 1 |}.

Definition sample_assign : stmt :=
  Assign x (Add_ (Variable_ x) (Number (PNum 1))).

Definition sample_if : stmt :=
  If (Variable_ x) (Assign y (Number (PNum 1))) (Assign y (Number (PNum 2))).

Definition sample_sequence : stmt :=
  Sequence (Assign x (Add_ (Number (PNum 1)) (Number (PNum 1))))
           (Assign y (Add_ (Variable_ x) (Number (PNum 3)))).

Definition sample_while : stmt :=
  While (LessThan (Variable_ x) (Number (PNum 5)))
        (Assign x (Multiply (Variable_ x) (Number (PNum 3)))).

Definition sample_less_than : val :=
  LessThan (Add_ (Variable_ x) (Number (PNum 2))) (Variable_ y).

(** ** Display: [toString] and [inspect]

    Strings are modelled by their UTF-8 bytes. *)

(** [String(p)], which is also what a template literal makes of a
    primitive: an integer (below 10^21 in absolute value) is written in
    decimal notation. *)
Definition prim_to_string (p : prim) : string :=
  match p with
  | PUndefined => "undefined"
  | PNum z => NilZero.string_of_int (Z.to_int z)
  | PNaN => "NaN"
  | PBool true => "true"
  | PBool false => "false"
  end.

(** The string a template literal makes of a value, [`${v}`]: for a node
    it is the result of its [toString] method ([Boolean.toString] returns
    [this.value] as it is, and the template converts it). *)
Fixpoint toString (v : val) : string :=
  match v with
  | VPrim p => prim_to_string p
  | Number value => prim_to_string value
  | Boolean value => prim_to_string value
  | Variable_ name => name
  | Add_ l r => toString l +:+ " + " +:+ toString r
  | Multiply l r => toString l +:+ " * " +:+ toString r
  | LessThan l r => toString l +:+ " < " +:+ toString r
  end.

Fixpoint toString_s (s : stmt) : string :=
  match s with
  | DoNothing => "do-nothing"
  | Assign name expression => name +:+ " = " +:+ toString expression
  | If condition consequence alternative =>
      "if (" +:+ toString condition +:+ ") { " +:+ toString_s consequence
      +:+ " } else { " +:+ toString_s alternative +:+ " }"
  | Sequence first second => toString_s first +:+ "; " +:+ toString_s second
  | While condition body =>
      "while (" +:+ toString condition +:+ ") { " +:+ toString_s body +:+ " }"
  end.

(** [inspect() { return `«${this.toString()}»`; }] *)
Definition inspect (v : val) : string := "«" +:+ toString v +:+ "»".

Definition inspect_s (s : stmt) : string := "«" +:+ toString_s s +:+ "»".

(** ** Statements without loops *)

Fixpoint loop_free (s : stmt) : bool :=
  match s with
  | DoNothing | Assign _ _ => true
  | If _ a b | Sequence a b => loop_free a && loop_free b
  | While _ _ => false
  end.

(** A bound on the number of steps the machine takes on a statement
    without loops. *)
Fixpoint step_bound (s : stmt) : nat :=
  match s with
  | DoNothing => 0
  | Assign _ e => S (reductions e)
  | If c a b => S (reductions c + (step_bound a `max` step_bound b))
  | Sequence a b => S (step_bound a + step_bound b)
  | While _ _ => 0
  end.

(** * Properties *)

(** ** Small facts about the outcome monad and the store *)

Lemma bind_Ok {A B} (f : A → outcome B) (m : outcome A) (b : B) :
  m ≫= f = Ok b ↔ ∃ a, m = Ok a ∧ f a = Ok b.
Proof.
  destruct m as [a|err|]; simpl; split; try (intros [a' [? ?]]); try done.
  - eauto.
  - by simplify_eq.
Qed.

Lemma own_properties_set {V} (h : heap V) (l : loc) (o : gmap string V) :
  own_properties (<[l := o]> h) l = o.
Proof. unfold own_properties. by rewrite lookup_insert_eq. Qed.

(** ** The machine and the statements' [reducible] *)

Lemma run_final_irreducible (fuel : nat) (m m' : Machine)
    (h h' : heap val) :
  run fuel m h = Ok (m', h') → reducible_s (statement m') = false.
Proof.
  revert m h. induction fuel as [|fuel IH]; intros m h; simpl;
    destruct (reducible_s (statement m)) eqn:Hred; try done;
    try (intros [= <- <-]; done).
  intros Hrun. apply bind_Ok in Hrun as [[m1 h1] [_ Hrun]]. eauto.
Qed.

(** C4: for every condition, body and environment, [While.reduce] returns
    the pair of [If(condition, Sequence(body, the same While), DoNothing)]
    and the environment it was given; the store is untouched. *)
Theorem while_reduce_unrolls (condition : val) (body : stmt) (env : envref)
    (h : heap val) :
  reduce_s h env (While condition body)
  = Ok (Some (If condition (Sequence body (While condition body)) DoNothing,
              env), h).
Proof. reflexivity. Qed.

(** C9: [DoNothing] is the only statement whose [reducible] is false, and
    when [Machine.run] returns, the machine's statement is [DoNothing]. *)
Theorem run_ends_in_DoNothing :
  (∀ s : stmt, reducible_s s = false ↔ s = DoNothing)
  ∧ (∀ fuel m h m' h',
       run fuel m h = Ok (m', h') → statement m' = DoNothing).
Proof.
  assert (Hirr : ∀ s : stmt, reducible_s s = false ↔ s = DoNothing).
  { intros s. split; [by destruct s | by intros ->]. }
  split; [exact Hirr|].
  intros fuel m h m' h' Hrun. apply Hirr.
  exact (run_final_irreducible fuel m m' h h' Hrun).
Qed.

Lemma run_ends_in_DoNothing_witness :
  run 3 (machine sample_assign) (at_1 {[ x := Number (PNum 2) ]})
  = Ok (machine DoNothing, at_1 {[ x := Number (PNum 3) ]})
  ∧ statement (machine DoNothing) = DoNothing.
Proof.
  assert (Hrun : run 3 (machine sample_assign)
                   (at_1 {[ x := Number (PNum 2) ]})
                 = Ok (machine DoNothing, at_1 {[ x := Number (PNum 3) ]}))
    by (vm_compute; reflexivity).
  split; [exact Hrun|].
  exact (proj2 run_ends_in_DoNothing 3%nat _ _ _ _ Hrun).
Defined.

(** ** The sample programs

    What the calls at the end of the source file compute. *)

Example run_sample_if :
  run 3 (machine sample_if) (at_1 {[ x := Boolean (PBool true) ]})
  = Ok (machine DoNothing,
        at_1 {[ x := Boolean (PBool true); y := Number (PNum 1) ]}).
Proof. vm_compute. reflexivity. Qed.

Example run_sample_sequence :
  run 8 (machine sample_sequence) (at_1 ∅)
  = Ok (machine DoNothing,
        at_1 {[ x := Number (PNum 2); y := Number (PNum 5) ]}).
Proof. vm_compute. reflexivity. Qed.

Example evaluate_sample_less_than :
  evaluate (at_1 {[ x := Number (PNum 4); y := Number (PNum 5) ]})
    (EnvRef 1) sample_less_than
  = Ok (Boolean (PBool false)).
Proof. vm_compute. reflexivity. Qed.

Example evaluate_sample_sequence :
  evaluate_s 0 sample_sequence (at_1 ∅) (EnvRef 1)
  = Ok (EnvRef 1, at_1 {[ x := Number (PNum 2); y := Number (PNum 5) ]}).
Proof. vm_compute. reflexivity. Qed.

Example compiled_sample_if :
  compiled_s sample_if 0 (at_1 {[ x := PBool false ]}) (EnvRef 1)
  = Ok (EnvRef 1, at_1 {[ x := PBool false; y := PNum 2 ]}).
Proof. vm_compute. reflexivity. Qed.

Example compiled_sample_while :
  compiled_s sample_while 3 (at_1 {[ x := PNum 1 ]}) (EnvRef 1)
  = Ok (EnvRef 1, at_1 {[ x := PNum 9 ]}).
Proof. vm_compute. reflexivity. Qed.

(** C3, as stated: two steps do not take the sample assignment to
    [(DoNothing, {x: 3})]; the machine then holds [x = 3] with [x] still
    bound to 2. *)
Lemma sample_assign_not_done_after_2_steps :
  steps 2 (machine sample_assign) (at_1 {[ x := Number (PNum 2) ]})
  = Ok (machine (Assign x (Number (PNum 3))),
        at_1 {[ x := Number (PNum 2) ]})
  ∧ steps 2 (machine sample_assign) (at_1 {[ x := Number (PNum 2) ]})
    ≠ Ok (machine DoNothing, at_1 {[ x := Number (PNum 3) ]}).
Proof.
  assert (H2 : steps 2 (machine sample_assign)
                 (at_1 {[ x := Number (PNum 2) ]})
               = Ok (machine (Assign x (Number (PNum 3))),
                     at_1 {[ x := Number (PNum 2) ]}))
    by (vm_compute; reflexivity).
  split; [exact H2|]. rewrite H2. intros H.
  apply (f_equal (λ o, match o with
                       | Ok (m, _) => reducible_s (statement m)
                       | _ => false
                       end)) in H.
  discriminate H.
Qed.

(** C3, amended: the sample assignment under [{x: 2}] reaches
    [(DoNothing, {x: 3})] after exactly 3 steps: one for the variable, one
    for the sum, one for the assignment; the two states before are
    reducible. *)
Theorem sample_assign_done_after_3_steps :
  steps 1 (machine sample_assign) (at_1 {[ x := Number (PNum 2) ]})
  = Ok (machine (Assign x (Add_ (Number (PNum 2)) (Number (PNum 1)))),
        at_1 {[ x := Number (PNum 2) ]})
  ∧ steps 2 (machine sample_assign) (at_1 {[ x := Number (PNum 2) ]})
    = Ok (machine (Assign x (Number (PNum 3))),
          at_1 {[ x := Number (PNum 2) ]})
  ∧ steps 3 (machine sample_assign) (at_1 {[ x := Number (PNum 2) ]})
    = Ok (machine DoNothing, at_1 {[ x := Number (PNum 3) ]})
  ∧ run 3 (machine sample_assign) (at_1 {[ x := Number (PNum 2) ]})
    = Ok (machine DoNothing, at_1 {[ x := Number (PNum 3) ]})
  ∧ run 2 (machine sample_assign) (at_1 {[ x := Number (PNum 2) ]})
    = OutOfFuel.
Proof. repeat split; vm_compute; reflexivity. Qed.

(** C6: for the sample loop under [{x: 1}], the machine's run and the
    big-step evaluation both terminate, and both leave [{x: 9}]. *)
Theorem sample_while_ends_with_9 :
  (∃ fuel, run fuel (machine sample_while) (at_1 {[ x := Number (PNum 1) ]})
           = Ok (machine DoNothing, at_1 {[ x := Number (PNum 9) ]}))
  ∧ (∃ fuel, evaluate_s fuel sample_while
               (at_1 {[ x := Number (PNum 1) ]}) (EnvRef 1)
             = Ok (EnvRef 1, at_1 {[ x := Number (PNum 9) ]})).
Proof.
  split.
  - exists 20%nat. vm_compute. reflexivity.
  - exists 3%nat. vm_compute. reflexivity.
Qed.

(** ** Assignment *)




(** ** What the code does where the specification asks for an error *)

(** C7, as stated: looking up [z] in [{}] is not a failure, neither in
    [reduce], nor in [evaluate], nor in the compiled closure. *)
Lemma unbound_variable_does_not_fail :
  (∀ err, reduce (at_1 ∅) (EnvRef 1) (Variable_ z) ≠ Throw err)
  ∧ (∀ err, evaluate (at_1 ∅) (EnvRef 1) (Variable_ z) ≠ Throw err)
  ∧ (∀ err, compiled (Variable_ z) (at_1 ∅) (EnvRef 1) ≠ Throw err).
Proof. repeat split; intros err H; vm_compute in H; discriminate H. Qed.

(** C7, amended: under [{}], [Variable("z")] reduces to [undefined],
    evaluates to [undefined], and its compiled closure returns
    [undefined]; no error is raised. *)
Theorem unbound_variable_is_undefined :
  reduce (at_1 ∅) (EnvRef 1) (Variable_ z) = Ok undefined
  ∧ evaluate (at_1 ∅) (EnvRef 1) (Variable_ z) = Ok undefined
  ∧ compiled (Variable_ z) (at_1 ∅) (EnvRef 1) = Ok PUndefined.
Proof. repeat split; vm_compute; reflexivity. Qed.

(** C8, as stated: with the number 1 as condition, [If.evaluate],
    [If.reduce] and [While.evaluate] return without a result; none of
    them raises an error. *)
Lemma number_condition_does_not_fail :
  (∀ err, evaluate_s 0 (If (Number (PNum 1)) DoNothing DoNothing)
            (at_1 ∅) (EnvRef 1) ≠ Throw err)
  ∧ (∀ err, reduce_s (at_1 ∅) (EnvRef 1)
              (If (Number (PNum 1)) DoNothing DoNothing) ≠ Throw err)
  ∧ (∀ err, evaluate_s 1 (While (Number (PNum 1)) DoNothing)
              (at_1 ∅) (EnvRef 1) ≠ Throw err).
Proof. repeat split; intros err H; vm_compute in H; discriminate H. Qed.

(** C8, amended: when the condition evaluates to a node whose [value] is
    neither [true] nor [false], [If.evaluate] and [While.evaluate] return
    [undefined] instead of an environment; when the condition is
    irreducible with such a [value], [If.reduce] returns [undefined]
    instead of a pair.  No error is raised at that point; [Machine.step]
    then throws a [TypeError] when it indexes the missing pair. *)
Theorem non_boolean_condition_falls_through (p : prim) (a b : stmt)
    (h : heap val) (e : envref) :
  strict_eq_true p = false → strict_eq_false p = false →
  (∀ c ret fuel,
     evaluate h e c = Ok ret → get_value ret = Ok p →
     evaluate_s fuel (If c a b) h e = Ok (EnvUndefined, h)
     ∧ evaluate_s (S fuel) (While c b) h e = Ok (EnvUndefined, h))
  ∧ (∀ c,
       reducible c = Ok false → get_value c = Ok p →
       reduce_s h e (If c a b) = Ok (None, h)
       ∧ step {| statement := If c a b; env := e |} h = Throw TypeError).
Proof.
  intros Ht Hf. split.
  - intros c ret fuel Hc Hret. simpl. rewrite Hc. simpl. rewrite Hret. simpl.
    by rewrite Ht, Hf.
  - intros c Hc Hval.
    assert (Hred : reduce_s h e (If c a b) = Ok (None, h)).
    { simpl. rewrite Hc. simpl. rewrite Hval. simpl. by rewrite Ht, Hf. }
    split; [exact Hred|]. unfold step. cbn [statement env].
    by rewrite Hred.
Qed.

Lemma non_boolean_condition_falls_through_witness :
  strict_eq_true (PNum 1) = false ∧ strict_eq_false (PNum 1) = false
  ∧ evaluate (at_1 ∅) (EnvRef 1) (Number (PNum 1)) = Ok (Number (PNum 1))
  ∧ get_value (Number (PNum 1)) = Ok (PNum 1)
  ∧ reducible (Number (PNum 1)) = Ok false
  ∧ evaluate_s 0 (If (Number (PNum 1)) DoNothing DoNothing)
      (at_1 ∅) (EnvRef 1) = Ok (EnvUndefined, at_1 ∅)
  ∧ evaluate_s 1 (While (Number (PNum 1)) DoNothing)
      (at_1 ∅) (EnvRef 1) = Ok (EnvUndefined, at_1 ∅)
  ∧ reduce_s (at_1 ∅) (EnvRef 1) (If (Number (PNum 1)) DoNothing DoNothing)
    = Ok (None, at_1 ∅)
  ∧ step (machine (If (Number (PNum 1)) DoNothing DoNothing)) (at_1 ∅)
    = Throw TypeError.
Proof.
  pose proof (non_boolean_condition_falls_through (PNum 1) DoNothing
                DoNothing (at_1 ∅) (EnvRef 1) eq_refl eq_refl) as [He Hr].
  destruct (He (Number (PNum 1)) (Number (PNum 1)) 0%nat eq_refl eq_refl)
    as [He1 He2].
  destruct (Hr (Number (PNum 1)) eq_refl eq_refl) as [Hr1 Hr2].
  repeat split; assumption.
Defined.

(** ** Well-typed expressions: [reduce] against [evaluate] *)

Ltac inv_bind H :=
  let a := fresh "a" in
  let Ha := fresh "Ha" in
  apply bind_Ok in H as (a & Ha & H).

Tactic Notation "bind_inv" hyp(H) "as" simple_intropattern(a) ident(Ha) :=
  apply bind_Ok in H as (a & Ha & H).

Lemma literal_of_TNumber (v : val) :
  literal_of TNumber v = true → ∃ n, v = Number (PNum n).
Proof. destruct v as [|[]| | | | |]; try done. eauto. Qed.

Lemma literal_of_TBoolean (v : val) :
  literal_of TBoolean v = true → ∃ b, v = Boolean (PBool b).
Proof. destruct v as [| |[]| | | |]; try done. eauto. Qed.

Lemma literal_of_is_literal (t : ty) (v : val) :
  literal_of t v = true → is_literal v = true.
Proof. by destruct t, v. Qed.

Lemma env_has_types_lookup (Γ : gmap string ty) (h : heap val) (l : loc)
    (name : string) (t : ty) :
  env_has_types Γ h l → Γ !! name = Some t →
  ∃ v, own_properties h l !! name = Some v ∧ literal_of t v = true.
Proof.
  intros Henv Hname. specialize (Henv name t Hname). unfold binds in Henv.
  destruct (own_properties h l !! name) as [v|]; [eauto|done].
Qed.

(** A well-typed expression evaluates, to a literal of its type. *)
Lemma typed_evaluate (Γ : gmap string ty) (h : heap val) (l : loc)
    (e : val) (t : ty) :
  has_type Γ e t → env_has_types Γ h l →
  ∃ v, evaluate h (EnvRef l) e = Ok v ∧ literal_of t v = true.
Proof.
  intros Hty Henv.
  induction Hty as [n|b|name t Hname
                   |e1 e2 _ IH1 _ IH2|e1 e2 _ IH1 _ IH2|e1 e2 _ IH1 _ IH2];
    try (destruct IH1 as (v1 & Hv1 & [n1 ->]%literal_of_TNumber),
                  IH2 as (v2 & Hv2 & [n2 ->]%literal_of_TNumber);
         simpl; unfold evaluate_operands; rewrite Hv1, Hv2; simpl; eauto).
  - simpl. eauto.
  - simpl. eauto.
  - destruct (env_has_types_lookup _ _ _ _ _ Henv Hname) as (v & Hv & Hlit).
    exists v. simpl. by rewrite Hv.
Qed.

Lemma literal_evaluate (h : heap val) (env : envref) (e : val) :
  is_literal e = true → evaluate h env e = Ok e.
Proof. by destruct e. Qed.

Lemma literal_get_value (e : val) :
  is_literal e = true → get_value e = Ok (raw_value e).
Proof. by destruct e. Qed.

Lemma closed_reducible (h : heap val) (l : loc) (e : val) :
  closed h l e = true → reducible e = Ok (negb (is_literal e)).
Proof. by destruct e. Qed.

Lemma literal_closed (h : heap val) (l : loc) (e : val) :
  is_literal e = true → closed h l e = true.
Proof. by destruct e. Qed.

Lemma literal_reductions (e : val) :
  is_literal e = true → reductions e = 0%nat.
Proof. by destruct e. Qed.

(** A closed expression evaluates, to a literal. *)
Lemma closed_evaluate (h : heap val) (l : loc) (e : val) :
  closed h l e = true →
  ∃ v, evaluate h (EnvRef l) e = Ok v ∧ is_literal v = true.
Proof.
  induction e as [p|p|p|name|e1 IH1 e2 IH2|e1 IH1 e2 IH2|e1 IH1 e2 IH2];
    simpl; intros Hc; try done;
    try (apply andb_prop in Hc as [Hc1 Hc2];
         destruct (IH1 Hc1) as (v1 & Hv1 & Hl1),
                  (IH2 Hc2) as (v2 & Hv2 & Hl2);
         unfold evaluate_operands; rewrite Hv1; simpl;
         rewrite (literal_get_value _ Hl1); simpl; rewrite Hv2; simpl;
         rewrite (literal_get_value _ Hl2); simpl; eauto).
  - eauto.
  - eauto.
  - destruct (own_properties h l !! name) as [v|]; [eauto|done].
Qed.

(** The case of a binary operator in [closed_reduce]: the left operand
    reduces first, then the right one, then the operator is applied. *)
Ltac closed_reduce_binary e1 e2 IH1 IH2 Hc :=
  let Hc1 := fresh "Hc1" in
  let Hc2 := fresh "Hc2" in
  let Hl1 := fresh "Hl1" in
  let Hl2 := fresh "Hl2" in
  let Hev := fresh "Hev" in
  simpl in Hc; apply andb_prop in Hc as [Hc1 Hc2];
  simpl; unfold reduce_operands;
  rewrite (closed_reducible _ _ _ Hc1), (closed_reducible _ _ _ Hc2); simpl;
  destruct (is_literal e1) eqn:Hl1; simpl;
  [ destruct (is_literal e2) eqn:Hl2; simpl;
    [ rewrite (literal_get_value _ Hl1), (literal_get_value _ Hl2); simpl;
      eexists; repeat split; unfold evaluate_operands;
      [ by rewrite (literal_reductions _ Hl1), (literal_reductions _ Hl2)
      | rewrite (literal_evaluate _ _ _ Hl1), (literal_evaluate _ _ _ Hl2);
        simpl;
        by rewrite (literal_get_value _ Hl1), (literal_get_value _ Hl2) ]
    | destruct (IH2 Hc2 eq_refl) as (? & -> & ? & -> & Hev); simpl;
      eexists; repeat split; simpl;
      [ by apply andb_true_intro
      | by rewrite (literal_reductions _ Hl1)
      | unfold evaluate_operands;
        rewrite (literal_evaluate _ _ _ Hl1); simpl;
        rewrite (literal_get_value _ Hl1); simpl; by rewrite Hev ] ]
  | destruct (IH1 Hc1 eq_refl) as (? & -> & ? & -> & Hev); simpl;
    eexists; repeat split; simpl;
    [ by apply andb_true_intro
    | unfold evaluate_operands; by rewrite Hev ] ].

(** One [reduce] of a closed expression that is not a literal: the
    result is closed, takes one reduction less, and evaluates to the same
    literal. *)
Lemma closed_reduce (h : heap val) (l : loc) (e : val) :
  closed h l e = true → is_literal e = false →
  ∃ e', reduce h (EnvRef l) e = Ok e'
        ∧ closed h l e' = true
        ∧ reductions e = S (reductions e')
        ∧ evaluate h (EnvRef l) e' = evaluate h (EnvRef l) e.
Proof.
  induction e as [p|p|p|name|e1 IH1 e2 IH2|e1 IH1 e2 IH2|e1 IH1 e2 IH2];
    intros Hc Hlit; try done.
  - simpl in *. destruct (own_properties h l !! name) as [v|]; [|done].
    exists v. simpl.
    by rewrite (literal_closed h l v Hc), (literal_reductions v Hc),
         (literal_evaluate _ _ _ Hc).
  - closed_reduce_binary e1 e2 IH1 IH2 Hc.
  - closed_reduce_binary e1 e2 IH1 IH2 Hc.
  - closed_reduce_binary e1 e2 IH1 IH2 Hc.
Qed.

(** Reduction of a closed expression to the end. *)
Lemma closed_reduce_until_irreducible (h : heap val) (l : loc) (v : val)
    (fuel : nat) :
  ∀ e, closed h l e = true → evaluate h (EnvRef l) e = Ok v →
       (reductions e ≤ fuel)%nat →
       reduce_until_irreducible fuel h (EnvRef l) e = Ok v.
Proof.
  induction fuel as [|fuel IH]; intros e Hc Hv Hfuel;
    destruct (is_literal e) eqn:He.
  - simpl. rewrite (closed_reducible _ _ _ Hc), He. simpl.
    rewrite (literal_evaluate _ _ _ He) in Hv. by simplify_eq.
  - destruct (closed_reduce h l e Hc He) as (? & _ & _ & ? & _). lia.
  - simpl. rewrite (closed_reducible _ _ _ Hc), He. simpl.
    rewrite (literal_evaluate _ _ _ He) in Hv. by simplify_eq.
  - destruct (closed_reduce h l e Hc He) as (e' & Hred & Hc' & Hn & Hev).
    simpl. rewrite (closed_reducible _ _ _ Hc), He. simpl.
    rewrite Hred. simpl. apply IH; [done| |lia]. by rewrite Hev.
Qed.

(** C1: for a well-typed closed expression [e], under an environment
    that binds the variables of [e] to literal nodes, [e.evaluate(env)]
    is a literal node [v], and reducing [e] until it is irreducible ends,
    after [reductions e] calls of [reduce], in [v]; when the literals of
    the environment have the types [e] expects, [v] has the type of
    [e]. *)
Theorem reduce_until_irreducible_is_evaluate (Γ : gmap string ty)
    (h : heap val) (l : loc) (e : val) (t : ty) :
  has_type Γ e t → closed h l e = true →
  ∃ v, is_literal v = true
       ∧ evaluate h (EnvRef l) e = Ok v
       ∧ (∀ fuel, (reductions e ≤ fuel)%nat →
            reduce_until_irreducible fuel h (EnvRef l) e = Ok v)
       ∧ (env_has_types Γ h l → literal_of t v = true).
Proof.
  intros Hty Hc.
  destruct (closed_evaluate h l e Hc) as (v & Hv & Hlit).
  exists v. repeat split; [done..| |].
  - intros fuel. by apply closed_reduce_until_irreducible.
  - intros Henv.
    destruct (typed_evaluate Γ h l e t Hty Henv) as (v' & Hv' & Hlit').
    rewrite Hv in Hv'. by simplify_eq.
Qed.

Lemma reduce_until_irreducible_is_evaluate_witness :
  ∃ v, is_literal v = true
       ∧ evaluate (at_1 {[ x := Number (PNum 4); y := Number (PNum 5) ]})
           (EnvRef 1) sample_less_than
         = Ok v
       ∧ (∀ fuel, (reductions sample_less_than ≤ fuel)%nat →
            reduce_until_irreducible fuel
              (at_1 {[ x := Number (PNum 4); y := Number (PNum 5) ]})
              (EnvRef 1) sample_less_than
            = Ok v)
       ∧ (env_has_types {[ x := TNumber; y := TNumber ]}
            (at_1 {[ x := Number (PNum 4); y := Number (PNum 5) ]}) 1 →
          literal_of TBoolean v = true).
Proof.
  apply (reduce_until_irreducible_is_evaluate
           {[ x := TNumber; y := TNumber ]}
           (at_1 {[ x := Number (PNum 4); y := Number (PNum 5) ]}) 1
           sample_less_than TBoolean).
  - repeat constructor.
  - vm_compute. reflexivity.
Defined.

(** ** More fuel does not change a result *)

Lemma while_evaluate_mono (n n' : nat)
    (condition : heap val → envref → outcome val)
    (body body' : heap val → envref → outcome (envref * heap val)) :
  (∀ h env r, body h env = Ok r → body' h env = Ok r) →
  (n ≤ n')%nat →
  ∀ h env r,
    while_evaluate n condition body h env = Ok r →
    while_evaluate n' condition body' h env = Ok r.
Proof.
  intros Hbody. revert n'.
  induction n as [|n IH]; intros n' Hle h env r; [done|].
  destruct n' as [|n']; [lia|]. simpl.
  destruct (condition h env) as [ret| |]; try done. simpl.
  destruct (get_value ret) as [p| |]; try done. simpl.
  destruct (strict_eq_true p); [|done].
  intros Hrun. inv_bind Hrun. destruct a as [env1 h1].
  rewrite (Hbody _ _ _ Ha). simpl. apply IH; [lia|done].
Qed.

Lemma evaluate_s_mono (fuel fuel' : nat) (s : stmt) :
  (fuel ≤ fuel')%nat →
  ∀ h env r,
    evaluate_s fuel s h env = Ok r → evaluate_s fuel' s h env = Ok r.
Proof.
  intros Hle.
  induction s as [|name e|c a IHa b IHb|a IHa b IHb|c b IHb];
    intros h env r; simpl.
  - done.
  - done.
  - destruct (evaluate h env c) as [ret| |]; try done. simpl.
    destruct (get_value ret) as [p| |]; try done. simpl.
    destruct (strict_eq_true p); [apply IHa|].
    destruct (strict_eq_false p); [apply IHb|done].
  - intros Hrun. inv_bind Hrun. destruct a0 as [env1 h1].
    rewrite (IHa _ _ _ Ha). simpl. by apply IHb.
  - by apply while_evaluate_mono.
Qed.

(** ** One step of the machine against [evaluate] *)

Lemma irreducible_is_literal (e : val) :
  reducible e = Ok false → is_literal e = true.
Proof. by destruct e. Qed.

Lemma environment_lookup (h : heap val) (l : loc) (name : string) :
  environment h l →
  default undefined (own_properties h l !! name) = undefined
  ∨ is_literal (default undefined (own_properties h l !! name)) = true.
Proof.
  intros Henv. destruct (own_properties h l !! name) as [v|] eqn:Hv.
  - right. exact (Henv name v Hv).
  - by left.
Qed.

(** The case of a binary operator in [reduce_preserves_evaluate]. *)
Lemma reduce_operands_preserve_evaluate (h : heap val) (env : envref)
    (node : val → val → val) (result : prim → prim → val) (l r : val) :
  (∀ a b, is_literal (result a b) = true) →
  (∀ l' r', evaluate h env (node l' r')
            = evaluate_operands (evaluate h env) result l' r') →
  (∀ l' v, reduce h env l = Ok l' → evaluate h env l' = Ok v →
           evaluate h env l = Ok v) →
  (∀ r' v, reduce h env r = Ok r' → evaluate h env r' = Ok v →
           evaluate h env r = Ok v) →
  ∀ e' v,
    reduce_operands (reduce h env) node result l r = Ok e' →
    evaluate h env e' = Ok v →
    evaluate_operands (evaluate h env) result l r = Ok v.
Proof.
  intros Hresult Hnode IHl IHr e' v Hred Hev.
  unfold reduce_operands in Hred.
  inv_bind Hred. destruct a as [|].
  - inv_bind Hred. simplify_eq. rewrite Hnode in Hev.
    unfold evaluate_operands in *. inv_bind Hev.
    by rewrite (IHl _ _ Ha0 Ha1).
  - inv_bind Hred. apply irreducible_is_literal in Ha as Hl.
    destruct a as [|].
    + inv_bind Hred. simplify_eq. rewrite Hnode in Hev.
      unfold evaluate_operands in *.
      rewrite (literal_evaluate _ _ _ Hl) in *. simpl in *.
      inv_bind Hev. rewrite Ha2. simpl. inv_bind Hev.
      by rewrite (IHr _ _ Ha1 Ha3).
    + apply irreducible_is_literal in Ha0 as Hr.
      inv_bind Hred. inv_bind Hred. simplify_eq.
      rewrite (literal_evaluate _ _ _ (Hresult _ _)) in Hev. simplify_eq.
      unfold evaluate_operands.
      rewrite (literal_evaluate _ _ _ Hl), (literal_evaluate _ _ _ Hr).
      simpl. rewrite Ha1. simpl. by rewrite Ha2.
Qed.

(** Under an environment of literals, [reduce] does not change what an
    expression evaluates to; no typing is assumed. *)
Lemma reduce_preserves_evaluate (h : heap val) (l : loc) (e e' v : val) :
  environment h l →
  reduce h (EnvRef l) e = Ok e' →
  evaluate h (EnvRef l) e' = Ok v →
  evaluate h (EnvRef l) e = Ok v.
Proof.
  intros Henv. revert e' v.
  induction e as [p|p|p|name|e1 IH1 e2 IH2|e1 IH1 e2 IH2|e1 IH1 e2 IH2];
    intros e' v; try done.
  - simpl. intros [= <-] Hev.
    destruct (environment_lookup h l name Henv) as [Hu|Hlit].
    + by rewrite Hu in Hev.
    + rewrite (literal_evaluate _ _ _ Hlit) in Hev. by simplify_eq.
  - by apply reduce_operands_preserve_evaluate.
  - by apply reduce_operands_preserve_evaluate.
  - by apply reduce_operands_preserve_evaluate.
Qed.

Lemma reduce_s_Sequence (h : heap val) (env : envref) (a b : stmt) :
  a ≠ DoNothing →
  reduce_s h env (Sequence a b)
  = '(reduced, h') ← reduce_s h env a;
    match reduced with
    | None => Throw TypeError
    | Some (a', env') => Ok (Some (Sequence a' b, env'), h')
    end.
Proof. by destruct a. Qed.

Lemma environment_insert (h : heap val) (l : loc) (name : string)
    (v : val) :
  environment h l → is_literal v = true →
  environment (<[l := <[name := v]> (own_properties h l)]> h) l.
Proof.
  intros Henv Hv. unfold environment. rewrite own_properties_set.
  by apply map_Forall_insert_2.
Qed.

(** One [reduce] of a statement under an environment of literals: the
    environment object stays the same, it still holds literals only, and
    whatever the reduced statement evaluates to, the statement itself
    evaluates to it. *)
Lemma reduce_s_preserves_evaluate (l : loc) (s : stmt) :
  ∀ (h h' : heap val) (s' : stmt) (env' : envref),
    environment h l →
    reduce_s h (EnvRef l) s = Ok (Some (s', env'), h') →
    env' = EnvRef l
    ∧ environment h' l
    ∧ ∀ fuel r, evaluate_s fuel s' h' env' = Ok r →
                evaluate_s (S fuel) s h (EnvRef l) = Ok r.
Proof.
  induction s as [|name e|c a IHa b IHb|a IHa b IHb|c b IHb];
    intros h h' s' env' Henv Hred.
  - done.
  - simpl in Hred. bind_inv Hred as [|] Hb.
    + bind_inv Hred as e1 He1. simplify_eq. repeat split; [done|].
      intros fuel r Hev. simpl in *. bind_inv Hev as v Hv.
      by rewrite (reduce_preserves_evaluate _ _ _ _ _ Henv He1 Hv).
    + apply irreducible_is_literal in Hb as Hlit.
      simpl in Hred. simplify_eq. repeat split.
      * by apply environment_insert.
      * intros fuel r [= <-]. simpl.
        by rewrite (literal_evaluate _ _ _ Hlit).
  - simpl in Hred. bind_inv Hred as [|] Hb.
    + bind_inv Hred as c1 Hc1. simplify_eq. repeat split; [done|].
      intros fuel r Hev. apply (evaluate_s_mono fuel); [lia|].
      simpl in *. bind_inv Hev as v Hv.
      by rewrite (reduce_preserves_evaluate _ _ _ _ _ Henv Hc1 Hv).
    + apply irreducible_is_literal in Hb as Hlit.
      bind_inv Hred as p Hp.
      destruct (strict_eq_true p) eqn:Ht;
        [|destruct (strict_eq_false p) eqn:Hf]; simplify_eq;
        (repeat split; [done|]); intros fuel r Hev;
        apply (evaluate_s_mono fuel); try lia; simpl;
        rewrite (literal_evaluate _ _ _ Hlit); simpl; rewrite Hp; simpl.
      * by rewrite Ht.
      * by rewrite Ht, Hf.
  - destruct (decide (a = DoNothing)) as [->|Hne].
    + simpl in Hred. simplify_eq. repeat split; [done|].
      intros fuel r Hev. apply (evaluate_s_mono fuel); [lia|]. done.
    + rewrite reduce_s_Sequence in Hred by done.
      bind_inv Hred as [[[a' env1]|] h1] Ha; [|done].
      simplify_eq.
      destruct (IHa _ _ _ _ Henv Ha) as (-> & Henv1 & Hev1).
      repeat split; [done|]. intros fuel r Hev. simpl in Hev.
      bind_inv Hev as [env2 h2] Ha'.
      simpl. rewrite (Hev1 _ _ Ha'). simpl.
      apply (evaluate_s_mono fuel); [lia|done].
  - simpl in Hred. simplify_eq. repeat split; [done|].
    intros fuel r Hev. simpl in *.
    destruct (evaluate h' (EnvRef l) c) as [ret| |]; try done. simpl in *.
    destruct (get_value ret) as [p| |]; try done. simpl in *.
    destruct (strict_eq_true p); [|done].
    bind_inv Hev as [env1 h1] Hb.
    rewrite (evaluate_s_mono fuel (S fuel) b (Nat.le_succ_diag_r _) _ _ _ Hb).
    simpl. revert Hev. apply while_evaluate_mono; [|done].
    apply evaluate_s_mono. lia.
Qed.

(** A run of the machine that returns computes what [evaluate] computes,
    on the environment object it started with: no typing is assumed, only
    an environment of literals. *)
Lemma run_is_evaluate (fuel : nat) (l : loc) :
  ∀ (s : stmt) (h h' : heap val) (m' : Machine),
    environment h l →
    run fuel {| statement := s; env := EnvRef l |} h = Ok (m', h') →
    evaluate_s fuel s h (EnvRef l) = Ok (env m', h')
    ∧ env m' = EnvRef l
    ∧ environment h' l.
Proof.
  induction fuel as [|fuel IH]; intros s h h' m' Henv Hrun.
  - destruct s; simpl in Hrun; try done. by simplify_eq.
  - simpl in Hrun. destruct (reducible_s s) eqn:Hs.
    + bind_inv Hrun as [m1 h1] Hstep. unfold step in Hstep.
      bind_inv Hstep as [[[s1 env1]|] h1'] Hred; [|done].
      simpl in Hred. simplify_eq.
      destruct (reduce_s_preserves_evaluate l s _ _ _ _ Henv Hred)
        as (-> & Henv1 & Hev).
      destruct (IH _ _ _ _ Henv1 Hrun) as (Hev1 & Hm' & Henv').
      auto.
    + destruct s; simpl in Hs; try done. by simplify_eq.
Qed.

(** ** Well-typed nodes: the emitted code against [evaluate] *)

Lemma own_properties_raw (h : heap val) (l : loc) :
  own_properties (raw_heap h) l = raw_value <$> own_properties h l.
Proof.
  unfold own_properties, raw_heap. rewrite lookup_fmap.
  destruct (h !! l); simpl; [done|by rewrite fmap_empty].
Qed.

Lemma raw_heap_set (h : heap val) (l : loc) (name : string) (v : val) :
  raw_heap (<[l := <[name := v]> (own_properties h l)]> h)
  = <[l := <[name := raw_value v]> (own_properties (raw_heap h) l)]>
      (raw_heap h).
Proof.
  rewrite own_properties_raw. unfold raw_heap.
  by rewrite fmap_insert, fmap_insert.
Qed.

Lemma env_has_types_weaken (Γ Γ0 : gmap string ty) (h : heap val)
    (l : loc) :
  Γ0 ⊆ Γ → env_has_types Γ h l → env_has_types Γ0 h l.
Proof.
  intros Hsub Henv name t Hname. apply Henv.
  by eapply lookup_weaken.
Qed.

Lemma env_has_types_insert (Γ : gmap string ty) (h : heap val) (l : loc)
    (name : string) (t : ty) (v : val) :
  env_has_types Γ h l → literal_of t v = true →
  env_has_types (<[name := t]> Γ)
    (<[l := <[name := v]> (own_properties h l)]> h) l.
Proof.
  intros Henv Hv name' t' Hname'. unfold binds.
  rewrite own_properties_set.
  destruct (decide (name = name')) as [<-|Hne].
  - rewrite lookup_insert_eq in Hname'. rewrite lookup_insert_eq.
    by simplify_eq.
  - rewrite lookup_insert_ne in Hname' by done.
    rewrite lookup_insert_ne by done. exact (Henv name' t' Hname').
Qed.

Lemma typed_toJs (Γ : gmap string ty) (e : val) (t : ty) :
  has_type Γ e t → ∃ f, toJs e = Ok f.
Proof.
  induction 1 as [n|b|name t Hname
                 |e1 e2 _ [f1 IH1] _ [f2 IH2]|e1 e2 _ [f1 IH1] _ [f2 IH2]
                 |e1 e2 _ [f1 IH1] _ [f2 IH2]];
    simpl; unfold toJs_operands; try rewrite IH1, IH2; simpl; eauto.
Qed.

(** The closure of a well-typed expression returns the primitive that the
    literal [e.evaluate(env)] stands for. *)
Lemma typed_compiled (Γ : gmap string ty) (h : heap val) (l : loc)
    (e : val) (t : ty) :
  has_type Γ e t → env_has_types Γ h l →
  ∃ v, evaluate h (EnvRef l) e = Ok v
       ∧ literal_of t v = true
       ∧ compiled e (raw_heap h) (EnvRef l) = Ok (raw_value v).
Proof.
  intros Hty Henv. unfold compiled.
  induction Hty as [n|b|name t Hname
                   |e1 e2 _ IH1 _ IH2|e1 e2 _ IH1 _ IH2|e1 e2 _ IH1 _ IH2];
    try (destruct IH1 as (v1 & Hv1 & [n1 ->]%literal_of_TNumber & Hc1),
                  IH2 as (v2 & Hv2 & [n2 ->]%literal_of_TNumber & Hc2);
         bind_inv Hc1 as f1 Hf1; bind_inv Hc2 as f2 Hf2;
         simpl; unfold evaluate_operands, toJs_operands;
         rewrite Hv1, Hv2, Hf1, Hf2; simpl; rewrite Hc1, Hc2; simpl;
         eexists; repeat split; done).
  - simpl. eauto.
  - simpl. eauto.
  - destruct (env_has_types_lookup _ _ _ _ _ Henv Hname) as (v & Hv & Hlit).
    exists v. simpl. rewrite own_properties_raw, lookup_fmap, Hv. done.
Qed.

Lemma typed_condition (Γ : gmap string ty) (h : heap val) (l : loc)
    (c : val) (fc : jsfun_e) :
  has_type Γ c TBoolean → toJs c = Ok fc → env_has_types Γ h l →
  ∃ b, evaluate h (EnvRef l) c = Ok (Boolean (PBool b))
       ∧ fc (raw_heap h) (EnvRef l) = Ok (PBool b).
Proof.
  intros Hty Hfc Henv.
  destruct (typed_compiled Γ h l c TBoolean Hty Henv)
    as (v & Hv & [b ->]%literal_of_TBoolean & Hc).
  exists b. split; [done|]. unfold compiled in Hc. by rewrite Hfc in Hc.
Qed.

(** The emitted loop against the recursion of [While.evaluate]. *)
Lemma typed_while (l : loc) (Γ : gmap string ty) (c : val) (fc : jsfun_e)
    (B : heap prim → envref → outcome (envref * heap prim))
    (body : heap val → envref → outcome (envref * heap val)) (n : nat) :
  has_type Γ c TBoolean → toJs c = Ok fc →
  agrees l Γ Γ B body →
  agrees l Γ Γ (js_while n fc B)
    (while_evaluate n (λ h env, evaluate h env c) body).
Proof.
  intros Hty Hfc Hbody.
  induction n as [|n IH]; intros h Henv Htypes; [done|].
  destruct (typed_condition Γ h l c fc Hty Hfc Htypes) as (b & Hv & Hc).
  simpl. rewrite Hv, Hc. simpl. destruct b; simpl; [|naive_solver].
  destruct (Hbody h Henv Htypes) as [-> Hinv].
  destruct (body h (EnvRef l)) as [[env1 h1]| |]; simpl; try done.
  destruct (Hinv env1 h1 eq_refl) as (-> & Henv1 & Htypes1).
  by apply IH.
Qed.

(** The closure of a well-typed statement does on the store of
    primitives what [evaluate] does on the store of nodes, with the same
    fuel. *)
Lemma typed_compiled_s (l : loc) (Γ Γ' : gmap string ty) (s : stmt) :
  stmt_type Γ s Γ' →
  ∃ f, toJs_s s = Ok f ∧ ∀ fuel, agrees l Γ Γ' (f fuel) (evaluate_s fuel s).
Proof.
  induction 1 as [Γ|Γ name e t Hty
                 |Γ Γ' c a b Hty _ (fa & Hfa & IHa) _ (fb & Hfb & IHb)
                 |Γ Γ1 Γ2 a b _ (fa & Hfa & IHa) _ (fb & Hfb & IHb)
                 |Γ c b Hty _ (fb & Hfb & IHb)
                 |Γ Γ0 Γ1 Γ' s Hsub _ (f & Hf & IH) Hsub'].
  - eexists. split; [reflexivity|]. intros fuel h Henv Htypes.
    simpl. naive_solver.
  - destruct (typed_toJs _ _ _ Hty) as [fx Hfx].
    eexists. simpl. rewrite Hfx. split; [reflexivity|].
    intros fuel h Henv Htypes.
    destruct (typed_compiled Γ h l e t Hty Htypes) as (v & Hv & Hlit & Hc).
    unfold compiled in Hc. rewrite Hfx in Hc. simpl in Hc.
    simpl. rewrite Hv, Hc. simpl. rewrite raw_heap_set. split; [done|].
    intros env' h' [= <- <-]. split; [done|]. split.
    + apply environment_insert; [done|]. by eapply literal_of_is_literal.
    + by apply env_has_types_insert.
  - destruct (typed_toJs _ _ _ Hty) as [fc Hfc].
    eexists. simpl. rewrite Hfc, Hfa, Hfb. split; [reflexivity|].
    intros fuel h Henv Htypes.
    destruct (typed_condition Γ h l c fc Hty Hfc Htypes) as (bb & Hv & Hc).
    simpl. rewrite Hv, Hc. simpl.
    destruct bb; simpl; [by apply IHa|by apply IHb].
  - eexists. simpl. rewrite Hfa, Hfb. split; [reflexivity|].
    intros fuel h Henv Htypes. simpl.
    destruct (IHa fuel h Henv Htypes) as [-> Hinv].
    destruct (evaluate_s fuel a h (EnvRef l)) as [[env1 h1]| |];
      simpl; try done.
    destruct (Hinv env1 h1 eq_refl) as (-> & Henv1 & Htypes1).
    by apply IHb.
  - destruct (typed_toJs _ _ _ Hty) as [fc Hfc].
    eexists. simpl. rewrite Hfc, Hfb. split; [reflexivity|].
    intros fuel. simpl. by apply typed_while.
  - exists f. split; [done|]. intros fuel h Henv Htypes.
    destruct (IH fuel h Henv (env_has_types_weaken _ _ _ _ Hsub Htypes))
      as [Heq Hinv].
    split; [done|]. intros env' h' Hev.
    destruct (Hinv env' h' Hev) as (-> & Henv' & Htypes').
    repeat split; [done|]. by eapply env_has_types_weaken.
Qed.

(** C5, as stated: on the same environment the compiled closure and
    [evaluate] do not return equal results.  The closure of [Number(1)]
    returns the primitive 1, [evaluate] the node itself; and under
    [{x: 2}], an environment of primitives as the closures expect it, the
    closure of [x + 1] returns 3 where [evaluate] returns [Number(NaN)]. *)
Lemma compiled_result_differs_from_evaluate :
  compiled (Number (PNum 1)) (at_1 ∅) (EnvRef 1) = Ok (PNum 1)
  ∧ evaluate (at_1 ∅) (EnvRef 1) (Number (PNum 1)) = Ok (Number (PNum 1))
  ∧ VPrim (PNum 1) ≠ Number (PNum 1)
  ∧ compiled (Add_ (Variable_ x) (Number (PNum 1)))
      (at_1 {[ x := PNum 2 ]}) (EnvRef 1)
    = Ok (PNum 3)
  ∧ evaluate (at_1 {[ x := VPrim (PNum 2) ]}) (EnvRef 1)
      (Add_ (Variable_ x) (Number (PNum 1)))
    = Ok (Number PNaN)
  ∧ VPrim (PNum 3) ≠ Number PNaN.
Proof. repeat split; try (vm_compute; reflexivity); discriminate. Qed.

(** C5, amended: let [env] bind names to literal nodes, and let the
    compiled closure run on the environment that binds each name to the
    primitive its literal stands for.  For a well-typed expression whose
    variable names are ASCII identifier names other than [__proto__],
    the closure returns the primitive that the literal
    [e.evaluate(env)] stands for.  For a well-typed statement with such
    names (those it assigns included), the closure and [evaluate]
    have the same outcome with the same fuel: both run out of it, or both
    return the environment object they were given, and the bindings the
    closure leaves are the primitives of the bindings [evaluate]
    leaves. *)
Theorem compiled_agrees_with_evaluate (Γ : gmap string ty) (h : heap val)
    (l : loc) :
  environment h l → env_has_types Γ h l →
  (∀ e t,
     has_type Γ e t → identifier_names e = true →
     ∃ v, evaluate h (EnvRef l) e = Ok v
          ∧ literal_of t v = true
          ∧ compiled e (raw_heap h) (EnvRef l) = Ok (raw_value v))
  ∧ (∀ s Γ' fuel,
       stmt_type Γ s Γ' → identifier_names_s s = true →
       compiled_s s fuel (raw_heap h) (EnvRef l)
       = raw_outcome (evaluate_s fuel s h (EnvRef l))
       ∧ ∀ env' h', evaluate_s fuel s h (EnvRef l) = Ok (env', h') →
                    env' = EnvRef l).
Proof.
  intros Henv Htypes. split.
  - intros e t Hty _. by apply (typed_compiled Γ).
  - intros s Γ' fuel Hty _.
    destruct (typed_compiled_s l Γ Γ' s Hty) as (f & Hf & Hagree).
    unfold compiled_s. rewrite Hf. simpl.
    destruct (Hagree fuel h Henv Htypes) as [Heq Hinv].
    split; [done|]. intros env' h' Hev. by destruct (Hinv env' h' Hev).
Qed.

Lemma compiled_agrees_with_evaluate_witness :
  (∃ v, evaluate (at_1 {[ x := Number (PNum 1) ]}) (EnvRef 1)
          (LessThan (Variable_ x) (Number (PNum 5)))
        = Ok v
        ∧ literal_of TBoolean v = true
        ∧ compiled (LessThan (Variable_ x) (Number (PNum 5)))
            (raw_heap (at_1 {[ x := Number (PNum 1) ]})) (EnvRef 1)
          = Ok (raw_value v))
  ∧ compiled_s sample_while 3
      (raw_heap (at_1 {[ x := Number (PNum 1) ]})) (EnvRef 1)
    = raw_outcome
        (evaluate_s 3 sample_while (at_1 {[ x := Number (PNum 1) ]})
           (EnvRef 1))
  ∧ ∀ env' h',
      evaluate_s 3 sample_while (at_1 {[ x := Number (PNum 1) ]}) (EnvRef 1)
      = Ok (env', h') →
      env' = EnvRef 1.
Proof.
  assert (Henv : environment (at_1 {[ x := Number (PNum 1) ]}) 1).
  { unfold environment. apply (bool_decide_unpack _). vm_compute. exact I. }
  assert (Htypes : env_has_types {[ x := TNumber ]}
                     (at_1 {[ x := Number (PNum 1) ]}) 1).
  { unfold env_has_types. apply (bool_decide_unpack _). vm_compute.
    exact I. }
  destruct (compiled_agrees_with_evaluate {[ x := TNumber ]}
              (at_1 {[ x := Number (PNum 1) ]}) 1 Henv Htypes) as [He Hs].
  split.
  - apply He; [|reflexivity]. repeat constructor.
  - apply (Hs sample_while {[ x := TNumber ]} 3%nat); [|reflexivity].
    apply T_While; [repeat constructor|].
    apply (T_Sub _ {[ x := TNumber ]} (<[x := TNumber]> {[ x := TNumber ]}));
      [done| |by rewrite insert_singleton].
    repeat constructor.
Defined.

(** C10: for a well-typed statement under an environment of literal
    nodes, when the machine's run returns, [evaluate] returns as well,
    with the environment object the machine ends with and the same
    bindings in it.  That object is the one the run started with; and
    when its literals had the types the statement expects, they end with
    the types the statement leaves. *)
Theorem run_agrees_with_evaluate (Γ Γ' : gmap string ty) (s : stmt)
    (h h' : heap val) (l : loc) (fuel : nat) (m' : Machine) :
  stmt_type Γ s Γ' → environment h l →
  run fuel {| statement := s; env := EnvRef l |} h = Ok (m', h') →
  (∃ fuel', evaluate_s fuel' s h (EnvRef l) = Ok (env m', h'))
  ∧ env m' = EnvRef l
  ∧ (env_has_types Γ h l → env_has_types Γ' h' l).
Proof.
  intros Hty Henv Hrun.
  destruct (run_is_evaluate fuel l s h h' m' Henv Hrun) as (Hev & Hm' & _).
  repeat split; [eauto|done|]. intros Htypes.
  destruct (typed_compiled_s l Γ Γ' s Hty) as (f & _ & Hagree).
  destruct (Hagree fuel h Henv Htypes) as [_ Hinv].
  by destruct (Hinv _ _ Hev) as (_ & _ & Htypes').
Qed.

Lemma run_agrees_with_evaluate_witness :
  run 20 (machine sample_while) (at_1 {[ x := Number (PNum 1) ]})
  = Ok (machine DoNothing, at_1 {[ x := Number (PNum 9) ]})
  ∧ (∃ fuel', evaluate_s fuel' sample_while
                (at_1 {[ x := Number (PNum 1) ]}) (EnvRef 1)
              = Ok (env (machine DoNothing),
                    at_1 {[ x := Number (PNum 9) ]}))
  ∧ env (machine DoNothing) = EnvRef 1
  ∧ (env_has_types {[ x := TNumber ]} (at_1 {[ x := Number (PNum 1) ]}) 1 →
     env_has_types {[ x := TNumber ]} (at_1 {[ x := Number (PNum 9) ]}) 1).
Proof.
  assert (Hrun : run 20 (machine sample_while)
                   (at_1 {[ x := Number (PNum 1) ]})
                 = Ok (machine DoNothing, at_1 {[ x := Number (PNum 9) ]}))
    by (vm_compute; reflexivity).
  split; [exact Hrun|].
  apply (run_agrees_with_evaluate {[ x := TNumber ]} {[ x := TNumber ]}
           sample_while (at_1 {[ x := Number (PNum 1) ]}) _ 1 20
           (machine DoNothing)).
  - apply T_While; [repeat constructor|].
    apply (T_Sub _ {[ x := TNumber ]} (<[x := TNumber]> {[ x := TNumber ]}));
      [done| |by rewrite insert_singleton].
    repeat constructor.
  - unfold environment. apply (bool_decide_unpack _). vm_compute. exact I.
  - exact Hrun.
Defined.

(** * Further properties of the code *)

(** ** What a statement does to the store *)

(** X1: [reduce] of a statement hands back the environment it was given
    (when it returns a pair at all) and writes to no other object. *)
Theorem reduce_s_frame (s : stmt) (h h' : heap val) (env : envref)
    (reduced : option (stmt * envref)) :
  reduce_s h env s = Ok (reduced, h') →
  (∀ s' env', reduced = Some (s', env') → env' = env)
  ∧ (∀ l, env ≠ EnvRef l → h' !! l = h !! l).
Proof.
  revert h h' reduced.
  induction s as [|name e|c a IHa b IHb|a IHa b IHb|c b IHb];
    intros h h' reduced Hred.
  - done.
  - simpl in Hred. bind_inv Hred as [|] Hb.
    + bind_inv Hred as e' He'. simplify_eq. split; [|done].
      by intros s' env' [= <- <-].
    + destruct env as [|l0]; [done|]. simpl in Hred. simplify_eq. split.
      * by intros s' env' [= <- <-].
      * intros l Hl. rewrite lookup_insert_ne; [done|congruence].
  - simpl in Hred. bind_inv Hred as [|] Hb.
    + bind_inv Hred as c' Hc'. simplify_eq. split; [|done].
      by intros s' env' [= <- <-].
    + bind_inv Hred as p Hp.
      destruct (strict_eq_true p); [|destruct (strict_eq_false p)];
        simplify_eq; (split; [|done]); by intros s' env' [= <- <-].
  - destruct (decide (a = DoNothing)) as [->|Hne].
    + simpl in Hred. simplify_eq. split; [|done].
      by intros s' env' [= <- <-].
    + rewrite reduce_s_Sequence in Hred by done.
      bind_inv Hred as [[[a' env1]|] h1] Ha; [|done]. simplify_eq.
      destruct (IHa _ _ _ Ha) as [Henv Hframe]. split; [|done].
      intros s' env' [= <- <-]. by apply (Henv a').
  - simpl in Hred. simplify_eq. split; [|done].
    by intros s' env' [= <- <-].
Qed.

Lemma reduce_s_frame_witness :
  reduce_s (<[2%positive := {[ y := Number (PNum 7) ]}]>
              (at_1 {[ x := Number (PNum 2) ]}))
    (EnvRef 1) (Sequence (Assign x (Number (PNum 3))) DoNothing)
  = Ok (Some (Sequence DoNothing DoNothing, EnvRef 1),
        <[1%positive := {[ x := Number (PNum 3) ]}]>
          (<[2%positive := {[ y := Number (PNum 7) ]}]>
             (at_1 {[ x := Number (PNum 2) ]})))
  ∧ (∀ s' env',
       Some (Sequence DoNothing DoNothing, EnvRef 1) = Some (s', env') →
       env' = EnvRef 1)
  ∧ (∀ l, EnvRef 1 ≠ EnvRef l →
       <[1%positive := {[ x := Number (PNum 3) ]}]>
         (<[2%positive := {[ y := Number (PNum 7) ]}]>
            (at_1 {[ x := Number (PNum 2) ]})) !! l
       = <[2%positive := {[ y := Number (PNum 7) ]}]>
           (at_1 {[ x := Number (PNum 2) ]}) !! l).
Proof.
  assert (Hred : reduce_s (<[2%positive := {[ y := Number (PNum 7) ]}]>
                             (at_1 {[ x := Number (PNum 2) ]}))
                   (EnvRef 1) (Sequence (Assign x (Number (PNum 3))) DoNothing)
                 = Ok (Some (Sequence DoNothing DoNothing, EnvRef 1),
                       <[1%positive := {[ x := Number (PNum 3) ]}]>
                         (<[2%positive := {[ y := Number (PNum 7) ]}]>
                            (at_1 {[ x := Number (PNum 2) ]}))))
    by (vm_compute; reflexivity).
  split; [exact Hred|].
  exact (reduce_s_frame _ _ _ _ _ Hred).
Defined.

Lemma while_evaluate_frame (n : nat)
    (condition : heap val → envref → outcome val)
    (body : heap val → envref → outcome (envref * heap val)) :
  (∀ h env env' h',
     body h env = Ok (env', h') →
     (env' = env ∨ env' = EnvUndefined)
     ∧ (∀ l, env ≠ EnvRef l → h' !! l = h !! l)) →
  ∀ h env env' h',
    while_evaluate n condition body h env = Ok (env', h') →
    (env' = env ∨ env' = EnvUndefined)
    ∧ (∀ l, env ≠ EnvRef l → h' !! l = h !! l).
Proof.
  intros Hbody. induction n as [|n IH]; intros h env env' h' Hev; [done|].
  simpl in Hev. bind_inv Hev as ret Hret. bind_inv Hev as p Hp.
  destruct (strict_eq_true p).
  - bind_inv Hev as [env1 h1] Hb.
    destruct (Hbody _ _ _ _ Hb) as [Henv1 Hframe1].
    destruct (IH _ _ _ _ Hev) as [Henv' Hframe'].
    split; [destruct Henv1, Henv'; subst; auto|].
    intros l Hl. rewrite <- (Hframe1 l Hl). apply Hframe'.
    destruct Henv1 as [->| ->]; [done|discriminate].
  - destruct (strict_eq_false p); simplify_eq; auto.
Qed.

(** X2: [evaluate] of a statement returns the environment object it was
    given, or [undefined] after a fall-through, and writes to no other
    object; evaluated under [undefined], a statement can only return
    [undefined], with the store untouched. *)
Theorem evaluate_s_frame (fuel : nat) (s : stmt) (h h' : heap val)
    (env env' : envref) :
  evaluate_s fuel s h env = Ok (env', h') →
  (env' = env ∨ env' = EnvUndefined)
  ∧ (∀ l, env ≠ EnvRef l → h' !! l = h !! l)
  ∧ (env = EnvUndefined → env' = EnvUndefined ∧ h' = h).
Proof.
  assert (Hmain : ∀ s h env env' h',
            evaluate_s fuel s h env = Ok (env', h') →
            (env' = env ∨ env' = EnvUndefined)
            ∧ (∀ l, env ≠ EnvRef l → h' !! l = h !! l)).
  { clear. intros s.
    induction s as [|name e|c a IHa b IHb|a IHa b IHb|c b IHb];
      intros h env env' h' Hev; simpl in Hev.
    - simplify_eq. auto.
    - bind_inv Hev as v Hv. destruct env as [|l0]; [done|].
      unfold merge in Hev. simpl in Hev. simplify_eq. split; [auto|].
      intros l Hl. rewrite lookup_insert_ne; [done|congruence].
    - bind_inv Hev as ret Hret. bind_inv Hev as p Hp.
      destruct (strict_eq_true p); [by apply IHa|].
      destruct (strict_eq_false p); [by apply IHb|].
      simplify_eq. auto.
    - bind_inv Hev as [env1 h1] Ha.
      destruct (IHa _ _ _ _ Ha) as [Henv1 Hframe1].
      destruct (IHb _ _ _ _ Hev) as [Henv' Hframe'].
      split; [destruct Henv1, Henv'; subst; auto|].
      intros l Hl. rewrite <- (Hframe1 l Hl). apply Hframe'.
      destruct Henv1 as [->| ->]; [done|discriminate].
    - revert Hev. apply while_evaluate_frame. intros ? ? ? ?. apply IHb. }
  intros Hev. destruct (Hmain _ _ _ _ _ Hev) as [Henv Hframe].
  split; [done|]. split; [done|]. intros ->. split.
  - by destruct Henv.
  - apply map_eq. intros l. by apply Hframe.
Qed.

Lemma evaluate_s_frame_witness :
  evaluate_s 0
    (Sequence (If (Number (PNum 1)) DoNothing DoNothing) DoNothing)
    (at_1 {[ x := Number (PNum 2) ]}) (EnvRef 1)
  = Ok (EnvUndefined, at_1 {[ x := Number (PNum 2) ]})
  ∧ (EnvUndefined = EnvRef 1 ∨ EnvUndefined = EnvUndefined)
  ∧ (∀ l, EnvRef 1 ≠ EnvRef l →
       at_1 {[ x := Number (PNum 2) ]} !! l
       = at_1 {[ x := Number (PNum 2) ]} !! l)
  ∧ (EnvRef 1 = EnvUndefined →
     EnvUndefined = EnvUndefined
     ∧ at_1 {[ x := Number (PNum 2) ]} = at_1 {[ x := Number (PNum 2) ]}).
Proof.
  assert (Hev : evaluate_s 0
                  (Sequence (If (Number (PNum 1)) DoNothing DoNothing)
                     DoNothing)
                  (at_1 {[ x := Number (PNum 2) ]}) (EnvRef 1)
                = Ok (EnvUndefined, at_1 {[ x := Number (PNum 2) ]}))
    by (vm_compute; reflexivity).
  split; [exact Hev|].
  exact (evaluate_s_frame _ _ _ _ _ _ Hev).
Defined.

Lemma js_while_frame (n : nat) (C : jsfun_e)
    (B : heap prim → envref → outcome (envref * heap prim)) :
  (∀ h e e' h',
     B h e = Ok (e', h') → e' = e ∧ ∀ l, e ≠ EnvRef l → h' !! l = h !! l) →
  ∀ h e e' h',
    js_while n C B h e = Ok (e', h') →
    e' = e ∧ ∀ l, e ≠ EnvRef l → h' !! l = h !! l.
Proof.
  intros HB. induction n as [|n IH]; intros h e e' h' Hrun; [done|].
  simpl in Hrun. bind_inv Hrun as c Hc. destruct (to_boolean c).
  - bind_inv Hrun as [e1 h1] Hb. destruct (HB _ _ _ _ Hb) as [-> Hframe1].
    destruct (IH _ _ _ _ Hrun) as [-> Hframe']. split; [done|].
    intros l Hl. rewrite <- (Hframe1 l Hl). by apply Hframe'.
  - by simplify_eq.
Qed.

Lemma toJs_s_frame (s : stmt) :
  ∀ f, toJs_s s = Ok f →
  ∀ fuel h e e' h',
    f fuel h e = Ok (e', h') →
    e' = e ∧ ∀ l, e ≠ EnvRef l → h' !! l = h !! l.
Proof.
  induction s as [|name ex|c a IHa b IHb|a IHa b IHb|c b IHb];
    intros f Hf; simpl in Hf.
  - simplify_eq. intros fuel h e e' h' Hrun. by simplify_eq.
  - bind_inv Hf as fx Hfx. simplify_eq. intros fuel h e e' h' Hrun.
    simpl in Hrun. bind_inv Hrun as v Hv. destruct e as [|l0]; [done|].
    simpl in Hrun. simplify_eq. split; [done|].
    intros l Hl. rewrite lookup_insert_ne; [done|congruence].
  - bind_inv Hf as fc Hfc. bind_inv Hf as fa Hfa. bind_inv Hf as fb Hfb.
    simplify_eq. intros fuel h e e' h' Hrun. simpl in Hrun.
    bind_inv Hrun as v Hv.
    destruct (to_boolean v); [by eapply IHa|by eapply IHb].
  - bind_inv Hf as f2 Hf2. bind_inv Hf as f1 Hf1. simplify_eq.
    intros fuel h e e' h' Hrun. simpl in Hrun.
    bind_inv Hrun as [e1 h1] H1.
    destruct (IHa _ Hf1 _ _ _ _ _ H1) as [-> Hframe1].
    destruct (IHb _ Hf2 _ _ _ _ _ Hrun) as [-> Hframe']. split; [done|].
    intros l Hl. rewrite <- (Hframe1 l Hl). by apply Hframe'.
  - bind_inv Hf as fc Hfc. bind_inv Hf as fb Hfb. simplify_eq.
    intros fuel h e e' h'. apply js_while_frame.
    intros ? ? ? ?. by apply IHb.
Qed.

(** X3: the closure compiled from a statement whose names are ASCII
    identifier names other than [__proto__] returns the very object it
    was called with, never [undefined], and writes to no other object. *)
Theorem compiled_s_frame (s : stmt) (fuel : nat) (h h' : heap prim)
    (e e' : envref) :
  identifier_names_s s = true →
  compiled_s s fuel h e = Ok (e', h') →
  e' = e ∧ ∀ l, e ≠ EnvRef l → h' !! l = h !! l.
Proof.
  unfold compiled_s. intros _ Hrun. bind_inv Hrun as f Hf.
  by eapply toJs_s_frame.
Qed.

Lemma compiled_s_frame_witness :
  identifier_names_s sample_if = true
  ∧ compiled_s sample_if 0 (at_1 {[ x := PNum 7 ]}) (EnvRef 1)
  = Ok (EnvRef 1, at_1 {[ x := PNum 7; y := PNum 1 ]})
  ∧ EnvRef 1 = EnvRef 1
  ∧ ∀ l, EnvRef 1 ≠ EnvRef l →
      at_1 {[ x := PNum 7; y := PNum 1 ]} !! l = at_1 {[ x := PNum 7 ]} !! l.
Proof.
  assert (Hrun : compiled_s sample_if 0 (at_1 {[ x := PNum 7 ]}) (EnvRef 1)
                 = Ok (EnvRef 1, at_1 {[ x := PNum 7; y := PNum 1 ]}))
    by (vm_compute; reflexivity).
  split; [reflexivity|]. split; [exact Hrun|].
  exact (compiled_s_frame sample_if _ _ _ _ _ eq_refl Hrun).
Defined.

(** ** Unbound variables *)

(** X4: when [z] is not bound, and is not a name inherited from
    [Object.prototype], [Assign(name, Variable(z)).evaluate] succeeds and
    binds [name] (any name but [__proto__]) to [undefined]; the machine,
    on the same statement, puts [undefined] in the place of the variable
    on its first step and throws a [TypeError] on the second. *)
Theorem assign_unbound_variable (h : heap val) (l : loc) (name z : string) :
  own_properties h l !! z = None → inherited z = false →
  name ≠ "__proto__" →
  (∀ fuel,
     evaluate_s fuel (Assign name (Variable_ z)) h (EnvRef l)
     = Ok (EnvRef l, <[l := <[name := undefined]> (own_properties h l)]> h))
  ∧ step {| statement := Assign name (Variable_ z); env := EnvRef l |} h
    = Ok ({| statement := Assign name undefined; env := EnvRef l |}, h)
  ∧ step {| statement := Assign name undefined; env := EnvRef l |} h
    = Throw TypeError
  ∧ (∀ fuel,
       run (S (S fuel))
         {| statement := Assign name (Variable_ z); env := EnvRef l |} h
       = Throw TypeError).
Proof.
  intros Hz _ _.
  assert (H1 : step {| statement := Assign name (Variable_ z);
                       env := EnvRef l |} h
               = Ok ({| statement := Assign name undefined;
                        env := EnvRef l |}, h)).
  { unfold step. simpl. by rewrite Hz. }
  repeat split; [|done|].
  - intros fuel. simpl. by rewrite Hz.
  - intros fuel.
    change (run (S (S fuel))
              {| statement := Assign name (Variable_ z); env := EnvRef l |} h)
      with ('(m', h') ← step {| statement := Assign name (Variable_ z);
                                env := EnvRef l |} h;
            run (S fuel) m' h').
    by rewrite H1.
Qed.

Lemma assign_unbound_variable_witness :
  own_properties (at_1 (∅ : gmap string val)) 1 !! z = None
  ∧ inherited z = false
  ∧ x ≠ "__proto__"
  ∧ (∀ fuel,
       evaluate_s fuel (Assign x (Variable_ z)) (at_1 ∅) (EnvRef 1)
       = Ok (EnvRef 1,
             <[1%positive := <[x := undefined]> (own_properties (at_1 ∅) 1)]>
               (at_1 ∅)))
  ∧ step {| statement := Assign x (Variable_ z); env := EnvRef 1 |} (at_1 ∅)
    = Ok ({| statement := Assign x undefined; env := EnvRef 1 |}, at_1 ∅)
  ∧ step {| statement := Assign x undefined; env := EnvRef 1 |} (at_1 ∅)
    = Throw TypeError
  ∧ (∀ fuel,
       run (S (S fuel))
         {| statement := Assign x (Variable_ z); env := EnvRef 1 |} (at_1 ∅)
       = Throw TypeError).
Proof.
  split; [reflexivity|]. split; [reflexivity|]. split; [discriminate|].
  apply (assign_unbound_variable (at_1 ∅) 1 x z);
    [reflexivity|reflexivity|discriminate].
Defined.

(** X5: a variable that is not bound, and not inherited from
    [Object.prototype], as left operand.  [evaluate] throws a [TypeError]
    whatever the right operand is (it reads [value] of [undefined]);
    [reduce] puts [undefined] in the tree and throws on the next call.
    The compiled closure does not throw on it, when the names of the
    operands are ASCII identifier names that [Object.prototype] does not
    have: once the right operand has returned, the sum and the product
    are NaN and the comparison is false. *)
Theorem unbound_left_operand (h : heap val) (hp : heap prim) (l : loc)
    (z : string) (r : val) :
  own_properties h l !! z = None → inherited z = false →
  (evaluate h (EnvRef l) (Add_ (Variable_ z) r) = Throw TypeError
   ∧ evaluate h (EnvRef l) (Multiply (Variable_ z) r) = Throw TypeError
   ∧ evaluate h (EnvRef l) (LessThan (Variable_ z) r) = Throw TypeError
   ∧ reduce h (EnvRef l) (Add_ (Variable_ z) r) = Ok (Add_ undefined r)
   ∧ reduce h (EnvRef l) (Add_ undefined r) = Throw TypeError
   ∧ reduce h (EnvRef l) (Multiply (Variable_ z) r)
     = Ok (Multiply undefined r)
   ∧ reduce h (EnvRef l) (Multiply undefined r) = Throw TypeError
   ∧ reduce h (EnvRef l) (LessThan (Variable_ z) r)
     = Ok (LessThan undefined r)
   ∧ reduce h (EnvRef l) (LessThan undefined r) = Throw TypeError)
  ∧ (own_properties hp l !! z = None → plain_name z = true →
     plain_names r = true →
     compiled (Add_ (Variable_ z) r) hp (EnvRef l)
     = (_ ← compiled r hp (EnvRef l); Ok PNaN)
     ∧ compiled (Multiply (Variable_ z) r) hp (EnvRef l)
       = (_ ← compiled r hp (EnvRef l); Ok PNaN)
     ∧ compiled (LessThan (Variable_ z) r) hp (EnvRef l)
       = (_ ← compiled r hp (EnvRef l); Ok (PBool false))).
Proof.
  intros Hz _. split.
  - split_and!; simpl; unfold evaluate_operands, reduce_operands; simpl;
      by rewrite ?Hz.
  - intros Hzp _ _.
    split_and!; unfold compiled; simpl; unfold toJs_operands; simpl;
      (destruct (toJs r) as [fr| |]; simpl; try done);
      rewrite Hzp; simpl; by destruct (fr hp (EnvRef l)).
Qed.

Lemma unbound_left_operand_witness :
  own_properties (at_1 (∅ : gmap string val)) 1 !! z = None
  ∧ inherited z = false
  ∧ own_properties (at_1 (∅ : gmap string prim)) 1 !! z = None
  ∧ plain_name z = true
  ∧ plain_names (Number (PNum 1)) = true
  ∧ evaluate (at_1 ∅) (EnvRef 1) (Add_ (Variable_ z) (Number (PNum 1)))
    = Throw TypeError
  ∧ reduce (at_1 ∅) (EnvRef 1) (LessThan undefined (Number (PNum 1)))
    = Throw TypeError
  ∧ compiled (Add_ (Variable_ z) (Number (PNum 1))) (at_1 ∅) (EnvRef 1)
    = Ok PNaN.
Proof.
  pose proof (unbound_left_operand (at_1 ∅) (at_1 ∅) 1 z (Number (PNum 1))
                eq_refl eq_refl) as [(He & _ & _ & _ & _ & _ & _ & _ & Hr) Hc].
  destruct (Hc eq_refl eq_refl eq_refl) as (Hc1 & _).
  split_and!; [reflexivity..|exact He|exact Hr|exact Hc1].
Defined.

(** ** How statements compose *)

(** X6: under [evaluate], [Sequence] is associative and [DoNothing] is
    its unit on both sides; and so it is in the compiled code, for
    statements whose names are ASCII identifier names other than
    [__proto__]. *)
Theorem sequence_monoid (fuel : nat) (a b c : stmt) :
  ((∀ h env,
      evaluate_s fuel (Sequence (Sequence a b) c) h env
      = evaluate_s fuel (Sequence a (Sequence b c)) h env)
   ∧ (∀ h env,
        evaluate_s fuel (Sequence DoNothing a) h env
        = evaluate_s fuel a h env)
   ∧ (∀ h env,
        evaluate_s fuel (Sequence a DoNothing) h env
        = evaluate_s fuel a h env))
  ∧ (identifier_names_s a = true → identifier_names_s b = true →
     identifier_names_s c = true →
     (∀ h e,
        compiled_s (Sequence (Sequence a b) c) fuel h e
        = compiled_s (Sequence a (Sequence b c)) fuel h e)
     ∧ (∀ h e,
          compiled_s (Sequence DoNothing a) fuel h e = compiled_s a fuel h e)
     ∧ (∀ h e,
          compiled_s (Sequence a DoNothing) fuel h e
          = compiled_s a fuel h e)).
Proof.
  split; [|intros _ _ _]; split_and!; intros h env.
  - simpl. by destruct (evaluate_s fuel a h env) as [[]| |].
  - reflexivity.
  - simpl. by destruct (evaluate_s fuel a h env) as [[]| |].
  - unfold compiled_s. simpl.
    destruct (toJs_s c) as [fc| |], (toJs_s b) as [fb| |],
      (toJs_s a) as [fa| |]; simpl; try done.
    by destruct (fa fuel h env) as [[]| |].
  - unfold compiled_s. simpl. by destruct (toJs_s a) as [fa| |].
  - unfold compiled_s. simpl. destruct (toJs_s a) as [fa| |]; simpl; try done.
    by destruct (fa fuel h env) as [[]| |].
Qed.

Lemma sequence_monoid_witness :
  identifier_names_s sample_assign = true
  ∧ identifier_names_s sample_if = true
  ∧ identifier_names_s sample_while = true
  ∧ (∀ h env,
       evaluate_s 3 (Sequence (Sequence sample_assign sample_if) sample_while)
         h env
       = evaluate_s 3
           (Sequence sample_assign (Sequence sample_if sample_while)) h env)
  ∧ (∀ h e,
       compiled_s (Sequence (Sequence sample_assign sample_if) sample_while)
         3 h e
       = compiled_s
           (Sequence sample_assign (Sequence sample_if sample_while)) 3 h e).
Proof.
  destruct (sequence_monoid 3 sample_assign sample_if sample_while)
    as [(He & _) Hc].
  destruct (Hc eq_refl eq_refl eq_refl) as (Hc1 & _).
  split_and!; [reflexivity..|exact He|exact Hc1].
Defined.

(** ** How many steps a reduction takes *)

(** X7: reducing a closed expression takes exactly one [reduce] call per
    variable and per operator in it: the loop does not finish with fewer
    iterations, and finishes with that many. *)
Theorem reduce_takes_reductions (h : heap val) (l : loc) (e : val) :
  closed h l e = true →
  (∀ fuel, (fuel < reductions e)%nat →
     reduce_until_irreducible fuel h (EnvRef l) e = OutOfFuel)
  ∧ ∃ v, reduce_until_irreducible (reductions e) h (EnvRef l) e = Ok v
         ∧ is_literal v = true.
Proof.
  intros Hc. split.
  - intros fuel. revert e Hc.
    induction fuel as [|fuel IH]; intros e Hc Hfuel;
      (destruct (is_literal e) eqn:He;
       [rewrite (literal_reductions _ He) in Hfuel; lia|]).
    + simpl. by rewrite (closed_reducible _ _ _ Hc), He.
    + destruct (closed_reduce h l e Hc He) as (e' & Hred & Hc' & Hn & _).
      simpl. rewrite (closed_reducible _ _ _ Hc), He. simpl.
      rewrite Hred. simpl. apply IH; [done|lia].
  - destruct (closed_evaluate h l e Hc) as (v & Hv & Hlit). exists v.
    split; [|done]. by apply closed_reduce_until_irreducible.
Qed.

Lemma reduce_takes_reductions_witness :
  closed (at_1 {[ x := Number (PNum 4); y := Number (PNum 5) ]}) 1
    sample_less_than = true
  ∧ (∀ fuel, (fuel < 4)%nat →
       reduce_until_irreducible fuel
         (at_1 {[ x := Number (PNum 4); y := Number (PNum 5) ]}) (EnvRef 1)
         sample_less_than
       = OutOfFuel)
  ∧ ∃ v, reduce_until_irreducible 4
           (at_1 {[ x := Number (PNum 4); y := Number (PNum 5) ]}) (EnvRef 1)
           sample_less_than
         = Ok v
         ∧ is_literal v = true.
Proof.
  split; [vm_compute; reflexivity|].
  apply (reduce_takes_reductions
           (at_1 {[ x := Number (PNum 4); y := Number (PNum 5) ]}) 1
           sample_less_than).
  vm_compute. reflexivity.
Defined.

Lemma steps_add (n k : nat) (m : Machine) (h : heap val) :
  steps (n + k) m h = '(m', h') ← steps n m h; steps k m' h'.
Proof.
  revert m h. induction n as [|n IH]; intros m h; simpl; [done|].
  destruct (step m h) as [[m1 h1]| |]; simpl; [apply IH|done..].
Qed.

Lemma step_reducible (m m' : Machine) (h h' : heap val) :
  step m h = Ok (m', h') → reducible_s (statement m) = true.
Proof. unfold step. by destruct (statement m). Qed.

(** A sequence of steps that ends in an irreducible statement is the run
    of the machine. *)
Lemma steps_run (k : nat) :
  ∀ (m m' : Machine) (h h' : heap val),
    steps k m h = Ok (m', h') → reducible_s (statement m') = false →
    (∀ fuel, (k ≤ fuel)%nat → run fuel m h = Ok (m', h'))
    ∧ (∀ fuel, (fuel < k)%nat → run fuel m h = OutOfFuel).
Proof.
  induction k as [|k IH]; intros m m' h h' Hsteps Hirr; simpl in Hsteps.
  - simplify_eq. split; [|lia]. intros fuel _.
    destruct fuel; simpl; by rewrite Hirr.
  - bind_inv Hsteps as [m1 h1] Hstep.
    pose proof (step_reducible _ _ _ _ Hstep) as Hred.
    destruct (IH _ _ _ _ Hsteps Hirr) as [Hlong Hshort]. split.
    + intros [|fuel] Hfuel; [lia|]. simpl. rewrite Hred, Hstep. simpl.
      apply Hlong. lia.
    + intros [|fuel] Hfuel; simpl; rewrite Hred; [done|].
      rewrite Hstep. simpl. apply Hshort. lia.
Qed.

(** The steps that reduce the expression held by a statement [K e],
    where a step on [K e] reduces [e] as long as [e] is reducible. *)
Lemma steps_in_context (K : val → stmt) (h : heap val) (l : loc) :
  (∀ e e', reducible e = Ok true → reduce h (EnvRef l) e = Ok e' →
           step {| statement := K e; env := EnvRef l |} h
           = Ok ({| statement := K e'; env := EnvRef l |}, h)) →
  ∀ n e v,
    reductions e = n → closed h l e = true →
    evaluate h (EnvRef l) e = Ok v →
    steps n {| statement := K e; env := EnvRef l |} h
    = Ok ({| statement := K v; env := EnvRef l |}, h).
Proof.
  intros HK. induction n as [|n IH]; intros e v Hn Hc Hv;
    destruct (is_literal e) eqn:He.
  - rewrite (literal_evaluate _ _ _ He) in Hv. by simplify_eq.
  - destruct (closed_reduce h l e Hc He) as (? & _ & _ & ? & _). lia.
  - rewrite (literal_reductions _ He) in Hn. lia.
  - destruct (closed_reduce h l e Hc He) as (e' & Hred & Hc' & Hn' & Hev).
    simpl. rewrite (HK e e'); [|by rewrite (closed_reducible _ _ _ Hc), He
                              |done].
    simpl. apply IH; [lia|done|by rewrite Hev].
Qed.

Lemma steps_Assign (h : heap val) (l : loc) (name : string) (e v : val) :
  closed h l e = true → evaluate h (EnvRef l) e = Ok v →
  steps (S (reductions e))
    {| statement := Assign name e; env := EnvRef l |} h
  = Ok ({| statement := DoNothing; env := EnvRef l |},
        <[l := <[name := v]> (own_properties h l)]> h).
Proof.
  intros Hc Hv.
  destruct (closed_evaluate h l e Hc) as (v' & Hv' & Hlit).
  rewrite Hv in Hv'. simplify_eq.
  replace (S (reductions e)) with (reductions e + 1)%nat by lia.
  rewrite steps_add.
  rewrite (steps_in_context (Assign name) h l) with (v := v'); try done.
  - simpl. unfold step. simpl.
    by rewrite (closed_reducible h l v' (literal_closed _ _ _ Hlit)), Hlit.
  - intros e0 e0' Hr Hred. unfold step. simpl. by rewrite Hr, Hred.
Qed.

(** X8: for a closed expression [e] and a name other than [__proto__],
    the machine takes [Assign(name, e)] to [DoNothing] in exactly one
    step more than [e] takes reductions, and then [name] is bound to
    [e.evaluate(env)] in the environment object. *)
Theorem run_Assign (h : heap val) (l : loc) (name : string) (e v : val) :
  name ≠ "__proto__" →
  closed h l e = true → evaluate h (EnvRef l) e = Ok v →
  (∀ fuel, (reductions e < fuel)%nat →
     run fuel {| statement := Assign name e; env := EnvRef l |} h
     = Ok ({| statement := DoNothing; env := EnvRef l |},
           <[l := <[name := v]> (own_properties h l)]> h))
  ∧ (∀ fuel, (fuel ≤ reductions e)%nat →
       run fuel {| statement := Assign name e; env := EnvRef l |} h
       = OutOfFuel).
Proof.
  intros _ Hc Hv.
  destruct (steps_run _ _ _ _ _ (steps_Assign h l name e v Hc Hv) eq_refl)
    as [Hlong Hshort].
  split; intros fuel Hfuel; [apply Hlong|apply Hshort]; lia.
Qed.

Lemma run_Assign_witness :
  x ≠ "__proto__"
  ∧ closed (at_1 {[ x := Number (PNum 2) ]}) 1
    (Add_ (Variable_ x) (Number (PNum 1))) = true
  ∧ evaluate (at_1 {[ x := Number (PNum 2) ]}) (EnvRef 1)
      (Add_ (Variable_ x) (Number (PNum 1)))
    = Ok (Number (PNum 3))
  ∧ (∀ fuel, (2 < fuel)%nat →
       run fuel (machine sample_assign) (at_1 {[ x := Number (PNum 2) ]})
       = Ok (machine DoNothing,
             <[1%positive := <[x := Number (PNum 3)]>
                 (own_properties (at_1 {[ x := Number (PNum 2) ]}) 1)]>
               (at_1 {[ x := Number (PNum 2) ]})))
  ∧ (∀ fuel, (fuel ≤ 2)%nat →
       run fuel (machine sample_assign) (at_1 {[ x := Number (PNum 2) ]})
       = OutOfFuel).
Proof.
  split; [discriminate|].
  split; [vm_compute; reflexivity|]. split; [vm_compute; reflexivity|].
  apply (run_Assign (at_1 {[ x := Number (PNum 2) ]}) 1 x
           (Add_ (Variable_ x) (Number (PNum 1))) (Number (PNum 3)));
    [discriminate|vm_compute; reflexivity..].
Defined.

(** ** Well-typed programs do not go wrong *)

Lemma typed_closed (Γ : gmap string ty) (h : heap val) (l : loc) (e : val)
    (t : ty) :
  has_type Γ e t → env_has_types Γ h l → closed h l e = true.
Proof.
  intros Hty Henv.
  induction Hty as [n|b|name t Hname
                   |e1 e2 _ IH1 _ IH2|e1 e2 _ IH1 _ IH2|e1 e2 _ IH1 _ IH2];
    simpl; try done; try (by rewrite IH1, IH2).
  destruct (env_has_types_lookup _ _ _ _ _ Henv Hname) as (v & -> & Hlit).
  by eapply literal_of_is_literal.
Qed.

Lemma literal_has_type (Γ : gmap string ty) (t : ty) (v : val) :
  literal_of t v = true → has_type Γ v t.
Proof.
  destruct t; intros H.
  - apply literal_of_TNumber in H as [n ->]. constructor.
  - apply literal_of_TBoolean in H as [b ->]. constructor.
Qed.

Lemma typed_is_literal (Γ : gmap string ty) (e : val) (t : ty) :
  has_type Γ e t → is_literal e = true → literal_of t e = true.
Proof. by destruct 1. Qed.

(** The case of a binary operator in [typed_reduce_type]. *)
Ltac typed_reduce_binary H1 H2 IH1 IH2 Henv Hred :=
  let Hl1 := fresh "Hl1" in
  let Hl2 := fresh "Hl2" in
  simpl in Hred; unfold reduce_operands in Hred;
  rewrite (closed_reducible _ _ _ (typed_closed _ _ _ _ _ H1 Henv)),
    (closed_reducible _ _ _ (typed_closed _ _ _ _ _ H2 Henv)) in Hred;
  simpl in Hred;
  match type of H1 with
  | has_type _ ?e1 _ => destruct (is_literal e1) eqn:Hl1
  end; simpl in Hred;
  [ match type of H2 with
    | has_type _ ?e2 _ => destruct (is_literal e2) eqn:Hl2
    end; simpl in Hred;
    [ apply (typed_is_literal _ _ _ H1), literal_of_TNumber in Hl1 as [? ->];
      apply (typed_is_literal _ _ _ H2), literal_of_TNumber in Hl2 as [? ->];
      simpl in Hred; simplify_eq; constructor
    | let r := fresh "r" in
      let Hr := fresh "Hr" in
      bind_inv Hred as r Hr; simplify_eq; constructor; [done|by apply IH2] ]
  | let r := fresh "r" in
    let Hr := fresh "Hr" in
    bind_inv Hred as r Hr; simplify_eq; constructor; [by apply IH1|done] ].

(** [reduce] keeps the type of a well-typed expression. *)
Lemma typed_reduce_type (Γ : gmap string ty) (h : heap val) (l : loc)
    (e e' : val) (t : ty) :
  has_type Γ e t → env_has_types Γ h l →
  reduce h (EnvRef l) e = Ok e' → has_type Γ e' t.
Proof.
  intros Hty Henv. revert e'.
  induction Hty as [n|b|name t Hname
                   |e1 e2 H1 IH1 H2 IH2|e1 e2 H1 IH1 H2 IH2
                   |e1 e2 H1 IH1 H2 IH2]; intros e' Hred; try done.
  - destruct (env_has_types_lookup _ _ _ _ _ Henv Hname) as (v & Hv & Hlit).
    simpl in Hred. rewrite Hv in Hred. simplify_eq.
    by apply literal_has_type.
  - typed_reduce_binary H1 H2 IH1 IH2 Henv Hred.
  - typed_reduce_binary H1 H2 IH1 IH2 Henv Hred.
  - typed_reduce_binary H1 H2 IH1 IH2 Henv Hred.
Qed.

Lemma stmt_type_DoNothing (Γ Γ' : gmap string ty) :
  stmt_type Γ DoNothing Γ' → Γ' ⊆ Γ.
Proof.
  intros Hty. remember DoNothing as s eqn:Hs.
  induction Hty as [Γ| | | | |Γ Γ0 Γ1 Γ' s Hsub _ IH Hsub']; try done.
  etrans; [exact Hsub'|]. etrans; [by apply IH|done].
Qed.

(** One [reduce] of a well-typed statement other than [DoNothing], under
    an environment of its types: it returns a pair, with the same
    environment object, and the new statement is well typed under the
    types the environment then has. *)
Lemma typed_reduce_s (l : loc) (Γ Γ' : gmap string ty) (s : stmt) :
  stmt_type Γ s Γ' →
  ∀ h, environment h l → env_has_types Γ h l → s ≠ DoNothing →
  ∃ s' h' Γ1,
    reduce_s h (EnvRef l) s = Ok (Some (s', EnvRef l), h')
    ∧ environment h' l ∧ env_has_types Γ1 h' l ∧ stmt_type Γ1 s' Γ'.
Proof.
  induction 1 as [Γ|Γ name e t Hty
                 |Γ Γ' c a b Hty Ha _ Hb _
                 |Γ Γ1 Γ2 a b Ha IHa Hb _
                 |Γ c b Hty Hb _
                 |Γ Γ0 Γ1 Γ' s Hsub _ IH Hsub'];
    intros h Henv Htypes Hne.
  - done.
  - pose proof (typed_closed _ _ _ _ _ Hty Htypes) as Hc.
    simpl. rewrite (closed_reducible _ _ _ Hc).
    destruct (is_literal e) eqn:He; simpl.
    + eexists _, _, _. split; [reflexivity|].
      pose proof (typed_is_literal _ _ _ Hty He) as Hlit.
      split_and!; [by apply environment_insert
                  |by apply env_has_types_insert|constructor].
    + destruct (closed_reduce h l e Hc He) as (e' & Hred & _).
      rewrite Hred. simpl. eexists _, _, _. split; [reflexivity|].
      split_and!; [done..|]. constructor.
      by eapply typed_reduce_type.
  - pose proof (typed_closed _ _ _ _ _ Hty Htypes) as Hc.
    simpl. rewrite (closed_reducible _ _ _ Hc).
    destruct (is_literal c) eqn:He; simpl.
    + apply (typed_is_literal _ _ _ Hty), literal_of_TBoolean in He
        as [[|] ->]; simpl;
        eexists _, _, _; (split; [reflexivity|]); by split_and!.
    + destruct (closed_reduce h l c Hc He) as (c' & Hred & _).
      rewrite Hred. simpl. eexists _, _, _. split; [reflexivity|].
      split_and!; [done..|]. constructor; [|done..].
      by eapply typed_reduce_type.
  - destruct (decide (a = DoNothing)) as [->|Hne'].
    + simpl. eexists _, _, _. split; [reflexivity|].
      split_and!; [done| |exact Hb].
      eapply env_has_types_weaken; [|done]. by apply stmt_type_DoNothing.
    + destruct (IHa h Henv Htypes Hne') as (a' & h' & Γa & Hred & ? & ? & ?).
      rewrite reduce_s_Sequence by done. rewrite Hred. simpl.
      eexists _, _, _. split; [reflexivity|].
      split_and!; [done..|]. by econstructor.
  - simpl. eexists _, _, _. split; [reflexivity|].
    split_and!; [done..|].
    constructor; [done| |constructor].
    econstructor; [done|]. by constructor.
  - destruct (IH h Henv (env_has_types_weaken _ _ _ _ Hsub Htypes) Hne)
      as (s' & h' & Γa & Hred & ? & ? & Hty').
    eexists _, _, _. split; [exact Hred|]. split_and!; [done..|].
    by apply (T_Sub Γa Γa Γ1 Γ' s').
Qed.

(** X9: type safety of the machine.  From a well-typed statement and an
    environment of literals of its types, no step throws: whatever the
    fuel, [Machine.run] runs out of it or returns, with [DoNothing], the
    same environment object, and bindings of the types the statement
    leaves. *)
Theorem typed_run_does_not_throw (l : loc) (fuel : nat) :
  ∀ (Γ Γ' : gmap string ty) (s : stmt) (h : heap val),
    stmt_type Γ s Γ' → environment h l → env_has_types Γ h l →
    run fuel {| statement := s; env := EnvRef l |} h = OutOfFuel
    ∨ ∃ h', run fuel {| statement := s; env := EnvRef l |} h
            = Ok ({| statement := DoNothing; env := EnvRef l |}, h')
            ∧ environment h' l ∧ env_has_types Γ' h' l.
Proof.
  induction fuel as [|fuel IH]; intros Γ Γ' s h Hty Henv Htypes;
    (destruct (decide (s = DoNothing)) as [->|Hne];
     [right; exists h; simpl; (split_and!; [done..|]);
      eapply env_has_types_weaken; [by apply stmt_type_DoNothing|done]|]).
  - left. by destruct s.
  - destruct (typed_reduce_s l Γ Γ' s Hty h Henv Htypes Hne)
      as (s' & h' & Γ1 & Hred & Henv' & Htypes' & Hty').
    assert (Hrun : run (S fuel) {| statement := s; env := EnvRef l |} h
                   = run fuel {| statement := s'; env := EnvRef l |} h').
    { simpl. destruct s; try done; unfold step; simpl statement;
        cbn [env]; by rewrite Hred. }
    rewrite Hrun. by eapply IH.
Qed.

Lemma typed_run_does_not_throw_witness :
  run 20 {| statement := sample_while; env := EnvRef 1 |}
    (at_1 {[ x := Number (PNum 1) ]}) = OutOfFuel
  ∨ ∃ h', run 20 {| statement := sample_while; env := EnvRef 1 |}
            (at_1 {[ x := Number (PNum 1) ]})
          = Ok ({| statement := DoNothing; env := EnvRef 1 |}, h')
          ∧ environment h' 1 ∧ env_has_types {[ x := TNumber ]} h' 1.
Proof.
  apply (typed_run_does_not_throw 1 20 {[ x := TNumber ]} {[ x := TNumber ]}
           sample_while (at_1 {[ x := Number (PNum 1) ]})).
  - apply T_While; [repeat constructor|].
    apply (T_Sub _ {[ x := TNumber ]} (<[x := TNumber]> {[ x := TNumber ]}));
      [done| |by rewrite insert_singleton].
    repeat constructor.
  - unfold environment. apply (bool_decide_unpack _). vm_compute. exact I.
  - unfold env_has_types. apply (bool_decide_unpack _). vm_compute. exact I.
Defined.

Lemma typed_while_evaluate (l : loc) (Γ : gmap string ty) (c : val)
    (body : heap val → envref → outcome (envref * heap val)) (n : nat) :
  has_type Γ c TBoolean →
  (∀ h, environment h l → env_has_types Γ h l →
     body h (EnvRef l) = OutOfFuel
     ∨ ∃ h', body h (EnvRef l) = Ok (EnvRef l, h')
             ∧ environment h' l ∧ env_has_types Γ h' l) →
  ∀ h, environment h l → env_has_types Γ h l →
    while_evaluate n (λ h env, evaluate h env c) body h (EnvRef l) = OutOfFuel
    ∨ ∃ h', while_evaluate n (λ h env, evaluate h env c) body h (EnvRef l)
            = Ok (EnvRef l, h')
            ∧ environment h' l ∧ env_has_types Γ h' l.
Proof.
  intros Hty Hbody. induction n as [|n IH]; intros h Henv Htypes; [by left|].
  destruct (typed_evaluate Γ h l c TBoolean Hty Htypes)
    as (v & Hv & [[|] ->]%literal_of_TBoolean); simpl; rewrite Hv; simpl.
  - destruct (Hbody h Henv Htypes) as [->|(h1 & -> & Henv1 & Htypes1)];
      simpl; [by left|]. by apply IH.
  - right. by exists h.
Qed.

Lemma evaluate_terminates (h : heap val) (env : envref) (e : val) :
  evaluate h env e ≠ OutOfFuel.
Proof.
  induction e as [p|p|p|name|e1 IH1 e2 IH2|e1 IH1 e2 IH2|e1 IH1 e2 IH2];
    simpl; try done; try (by destruct env);
    unfold evaluate_operands;
    (destruct (evaluate h env e1) as [v1| |]; [|done..]); simpl;
    (destruct v1 as [[]| | | | | |]; simpl; try done);
    (destruct (evaluate h env e2) as [v2| |]; [|done..]); simpl;
    by destruct v2 as [[]| | | | | |].
Qed.

Lemma loop_free_evaluate_s (fuel : nat) (s : stmt) :
  loop_free s = true → ∀ h env, evaluate_s fuel s h env ≠ OutOfFuel.
Proof.
  induction s as [|name e|c a IHa b IHb|a IHa b IHb|c b IHb];
    intros Hs h env; simpl in *; try done.
  - pose proof (evaluate_terminates h env e) as He.
    destruct (evaluate h env e) as [v| |]; simpl; try done. by destruct env.
  - apply andb_prop in Hs as [Ha Hb].
    pose proof (evaluate_terminates h env c) as Hc.
    destruct (evaluate h env c) as [v| |]; simpl; try done.
    destruct v as [[]| | | | | |]; simpl; try done;
      match goal with
      | |- context [strict_eq_true ?p] =>
          destruct (strict_eq_true p); [by apply IHa|];
          destruct (strict_eq_false p); [by apply IHb|done]
      end.
  - apply andb_prop in Hs as [Ha Hb].
    destruct (evaluate_s fuel a h env) as [[env1 h1]| |] eqn:H1; simpl;
      [by apply IHb|done|by apply IHa in H1].
Qed.

(** From a well-typed statement and an environment of literals of its
    types, [evaluate] runs out of fuel or returns that environment, with
    the types the statement leaves. *)
Lemma typed_evaluate_s_safe (l : loc) (fuel : nat) (Γ Γ' : gmap string ty)
    (s : stmt) :
  stmt_type Γ s Γ' →
  ∀ h, environment h l → env_has_types Γ h l →
    evaluate_s fuel s h (EnvRef l) = OutOfFuel
    ∨ ∃ h', evaluate_s fuel s h (EnvRef l) = Ok (EnvRef l, h')
            ∧ environment h' l ∧ env_has_types Γ' h' l.
Proof.
  induction 1 as [Γ|Γ name e t Hty
                 |Γ Γ' c a b Hty _ IHa _ IHb
                 |Γ Γ1 Γ2 a b _ IHa _ IHb
                 |Γ c b Hty _ IHb
                 |Γ Γ0 Γ1 Γ' s Hsub _ IH Hsub'];
    intros h Henv Htypes.
  - right. by exists h.
  - destruct (typed_evaluate Γ h l e t Hty Htypes) as (v & Hv & Hlit).
    right. simpl. rewrite Hv. simpl. eexists. split; [reflexivity|].
    split; [|by apply env_has_types_insert].
    apply environment_insert; [done|]. by eapply literal_of_is_literal.
  - destruct (typed_evaluate Γ h l c TBoolean Hty Htypes)
      as (v & Hv & [[|] ->]%literal_of_TBoolean); simpl; rewrite Hv; simpl;
      [by apply IHa|by apply IHb].
  - simpl.
    destruct (IHa h Henv Htypes) as [->|(h1 & -> & Henv1 & Htypes1)];
      simpl; [by left|]. by apply IHb.
  - simpl. by apply (typed_while_evaluate l Γ).
  - destruct (IH h Henv (env_has_types_weaken _ _ _ _ Hsub Htypes))
      as [->|(h' & -> & Henv' & Htypes')]; [by left|].
    right. exists h'. split_and!; [done..|].
    by eapply env_has_types_weaken.
Qed.

(** X10: type safety of [evaluate].  From a well-typed statement and an
    environment of literals of its types, [evaluate] does not throw and
    does not fall through: it runs out of fuel, or returns the
    environment object it was given, with bindings of the types the
    statement leaves; and it returns when the statement has no loop. *)
Theorem typed_evaluate_s_does_not_throw (l : loc) (fuel : nat)
    (Γ Γ' : gmap string ty) (s : stmt) :
  stmt_type Γ s Γ' →
  ∀ h, environment h l → env_has_types Γ h l →
    (evaluate_s fuel s h (EnvRef l) = OutOfFuel
     ∨ ∃ h', evaluate_s fuel s h (EnvRef l) = Ok (EnvRef l, h')
             ∧ environment h' l ∧ env_has_types Γ' h' l)
    ∧ (loop_free s = true →
       ∃ h', evaluate_s fuel s h (EnvRef l) = Ok (EnvRef l, h')).
Proof.
  intros Hty h Henv Htypes.
  pose proof (typed_evaluate_s_safe l fuel Γ Γ' s Hty h Henv Htypes) as Hsafe.
  split; [done|]. intros Hfree.
  destruct Hsafe as [Hout|(h' & Hev & _)]; [|eauto].
  by apply loop_free_evaluate_s in Hout.
Qed.

Lemma typed_evaluate_s_does_not_throw_witness :
  (evaluate_s 0 sample_if (at_1 {[ x := Boolean (PBool true) ]}) (EnvRef 1)
   = OutOfFuel
   ∨ ∃ h', evaluate_s 0 sample_if (at_1 {[ x := Boolean (PBool true) ]})
             (EnvRef 1)
           = Ok (EnvRef 1, h')
           ∧ environment h' 1
           ∧ env_has_types {[ y := TNumber ]} h' 1)
  ∧ (loop_free sample_if = true →
     ∃ h', evaluate_s 0 sample_if (at_1 {[ x := Boolean (PBool true) ]})
             (EnvRef 1)
           = Ok (EnvRef 1, h')).
Proof.
  apply (typed_evaluate_s_does_not_throw 1 0 {[ x := TBoolean ]}
           {[ y := TNumber ]} sample_if).
  - apply T_If; [by constructor|..];
      apply (T_Sub _ {[ x := TBoolean ]} (<[y := TNumber]> {[ x := TBoolean ]}));
      try done; try (repeat constructor);
      apply map_subseteq_spec; intros k v Hk;
      apply lookup_singleton_Some in Hk as [<- <-]; reflexivity.
  - unfold environment. apply (bool_decide_unpack _). vm_compute. exact I.
  - unfold env_has_types. apply (bool_decide_unpack _). vm_compute. exact I.
Defined.

(** ** From [evaluate] to the machine *)

Lemma steps_trans (n k : nat) (m m1 : Machine) (h h1 : heap val)
    (r : Machine * heap val) :
  steps n m h = Ok (m1, h1) → steps k m1 h1 = Ok r →
  steps (n + k) m h = Ok r.
Proof. intros Hn Hk. by rewrite steps_add, Hn. Qed.

(** The steps of [first] are the steps of [Sequence(first, second)], and
    one more step drops the [DoNothing] that is left. *)
Lemma steps_Sequence (k : nat) (b : stmt) :
  ∀ (a : stmt) (h h1 : heap val) (e e1 : envref),
    steps k {| statement := a; env := e |} h
    = Ok ({| statement := DoNothing; env := e1 |}, h1) →
    steps (S k) {| statement := Sequence a b; env := e |} h
    = Ok ({| statement := b; env := e1 |}, h1).
Proof.
  induction k as [|k IH]; intros a h h1 e e1 Hsteps.
  - simpl in Hsteps. by simplify_eq.
  - change (steps (S k) {| statement := a; env := e |} h)
      with ('(m', h') ← step {| statement := a; env := e |} h;
            steps k m' h') in Hsteps.
    bind_inv Hsteps as [[a1 e2] h2] Hstep.
    assert (Hne : a ≠ DoNothing).
    { intros ->. by apply step_reducible in Hstep. }
    unfold step in Hstep. cbn [statement env] in Hstep.
    bind_inv Hstep as [[[a1' e2']|] h2'] Hred; [|done]. simplify_eq.
    change (steps (S (S k)) {| statement := Sequence a b; env := e |} h)
      with ('(m', h') ← step {| statement := Sequence a b; env := e |} h;
            steps (S k) m' h').
    unfold step. cbn [statement env].
    rewrite reduce_s_Sequence by done. rewrite Hred. simpl. by apply IH.
Qed.

Lemma step_If_context (h : heap val) (l : loc) (a b : stmt) (c c' : val) :
  reducible c = Ok true → reduce h (EnvRef l) c = Ok c' →
  step {| statement := If c a b; env := EnvRef l |} h
  = Ok ({| statement := If c' a b; env := EnvRef l |}, h).
Proof. intros Hr Hred. unfold step. simpl. by rewrite Hr, Hred. Qed.

(** The steps that take a well-typed [If] to the branch its condition
    chooses. *)
Lemma steps_If (Γ : gmap string ty) (h : heap val) (l : loc) (c : val)
    (a b : stmt) (bb : bool) :
  has_type Γ c TBoolean → env_has_types Γ h l →
  evaluate h (EnvRef l) c = Ok (Boolean (PBool bb)) →
  steps (S (reductions c)) {| statement := If c a b; env := EnvRef l |} h
  = Ok ({| statement := if bb then a else b; env := EnvRef l |}, h).
Proof.
  intros Hty Htypes Hv.
  replace (S (reductions c)) with (reductions c + 1)%nat by lia.
  eapply steps_trans.
  - apply (steps_in_context (λ c, If c a b) h l); [|done| |exact Hv].
    + intros. by apply step_If_context.
    + by eapply typed_closed.
  - by destruct bb.
Qed.

Lemma steps_While (l : loc) (Γ : gmap string ty) (c : val) (b : stmt)
    (body : heap val → envref → outcome (envref * heap val)) (n : nat) :
  has_type Γ c TBoolean →
  (∀ h env' h', environment h l → env_has_types Γ h l →
     body h (EnvRef l) = Ok (env', h') →
     env' = EnvRef l ∧ environment h' l ∧ env_has_types Γ h' l
     ∧ ∃ k, steps k {| statement := b; env := EnvRef l |} h
            = Ok ({| statement := DoNothing; env := EnvRef l |}, h')) →
  ∀ h env' h', environment h l → env_has_types Γ h l →
    while_evaluate n (λ h env, evaluate h env c) body h (EnvRef l)
    = Ok (env', h') →
    ∃ k, steps k {| statement := While c b; env := EnvRef l |} h
         = Ok ({| statement := DoNothing; env := EnvRef l |}, h').
Proof.
  intros Hty Hbody.
  induction n as [|n IH]; intros h env' h' Henv Htypes Hev; [done|].
  destruct (typed_evaluate Γ h l c TBoolean Hty Htypes)
    as (v & Hv & [bb ->]%literal_of_TBoolean).
  simpl in Hev. rewrite Hv in Hev. simpl in Hev.
  pose proof (steps_If Γ h l c (Sequence b (While c b)) DoNothing bb
                Hty Htypes Hv) as Hif.
  destruct bb; simpl in Hev.
  - bind_inv Hev as [env1 h1] Hb.
    destruct (Hbody _ _ _ Henv Htypes Hb)
      as (-> & Henv1 & Htypes1 & kb & Hkb).
    destruct (IH _ _ _ Henv1 Htypes1 Hev) as (kw & Hkw).
    exists (1 + (S (reductions c) + (S kb + kw)))%nat.
    eapply (steps_trans 1); [reflexivity|].
    eapply steps_trans; [exact Hif|].
    eapply steps_trans; [by apply steps_Sequence|done].
  - simplify_eq. exists (1 + (S (reductions c)))%nat.
    eapply (steps_trans 1); [reflexivity|done].
Qed.

(** Whatever [evaluate] returns on a well-typed statement, the machine
    reaches in a number of steps. *)
Lemma typed_evaluate_s_steps (l : loc) (fuel : nat) (Γ Γ' : gmap string ty)
    (s : stmt) :
  stmt_type Γ s Γ' →
  ∀ h env' h', environment h l → env_has_types Γ h l →
    evaluate_s fuel s h (EnvRef l) = Ok (env', h') →
    env' = EnvRef l ∧ environment h' l ∧ env_has_types Γ' h' l
    ∧ ∃ k, steps k {| statement := s; env := EnvRef l |} h
           = Ok ({| statement := DoNothing; env := EnvRef l |}, h').
Proof.
  induction 1 as [Γ|Γ name e t Hty
                 |Γ Γ' c a b Hty _ IHa _ IHb
                 |Γ Γ1 Γ2 a b _ IHa _ IHb
                 |Γ c b Hty Hb IHb
                 |Γ Γ0 Γ1 Γ' s Hsub _ IH Hsub'];
    intros h env' h' Henv Htypes Hev.
  - simpl in Hev. simplify_eq. split_and!; [done..|]. by exists 0%nat.
  - destruct (typed_evaluate Γ h l e t Hty Htypes) as (v & Hv & Hlit).
    simpl in Hev. rewrite Hv in Hev. unfold merge in Hev. simpl in Hev.
    simplify_eq. split_and!; [done| |by apply env_has_types_insert|].
    + apply environment_insert; [done|]. by eapply literal_of_is_literal.
    + exists (S (reductions e)). apply steps_Assign; [|done].
      by eapply typed_closed.
  - destruct (typed_evaluate Γ h l c TBoolean Hty Htypes)
      as (v & Hv & [bb ->]%literal_of_TBoolean).
    simpl in Hev. rewrite Hv in Hev. simpl in Hev.
    pose proof (steps_If Γ h l c a b bb Hty Htypes Hv) as Hif.
    destruct bb; simpl in Hev.
    + destruct (IHa _ _ _ Henv Htypes Hev) as (-> & ? & ? & k & Hk).
      split_and!; [done..|]. eexists. by eapply steps_trans.
    + destruct (IHb _ _ _ Henv Htypes Hev) as (-> & ? & ? & k & Hk).
      split_and!; [done..|]. eexists. by eapply steps_trans.
  - simpl in Hev. bind_inv Hev as [env1 h1] Ha.
    destruct (IHa _ _ _ Henv Htypes Ha) as (-> & Henv1 & Htypes1 & ka & Hka).
    destruct (IHb _ _ _ Henv1 Htypes1 Hev) as (-> & ? & ? & kb & Hkb).
    split_and!; [done..|]. eexists.
    eapply steps_trans; [by apply steps_Sequence|done].
  - simpl in Hev.
    assert (Hinv : env' = EnvRef l ∧ environment h' l ∧ env_has_types Γ h' l).
    { destruct (typed_evaluate_s_safe l fuel Γ Γ (While c b)
                  (T_While Γ c b Hty Hb) h Henv Htypes)
        as [Hout|(h2 & Hev2 & ? & ?)].
      - simpl in Hout. by rewrite Hev in Hout.
      - simpl in Hev2. rewrite Hev in Hev2. by simplify_eq. }
    destruct Hinv as (-> & ? & ?). split_and!; [done..|].
    by eapply (steps_While l Γ c b (evaluate_s fuel b) fuel).
  - destruct (IH _ _ _ Henv (env_has_types_weaken _ _ _ _ Hsub Htypes) Hev)
      as (-> & ? & ? & k & Hk).
    split_and!; [done..| |by exists k]. by eapply env_has_types_weaken.
Qed.

(** X11: the converse of the agreement of the machine with [evaluate].
    When [evaluate] returns on a well-typed statement, under an
    environment of literals of its types, the machine's run returns as
    well, given enough fuel: with [DoNothing], the same environment
    object and the same bindings. *)
Theorem evaluate_s_is_run (l : loc) (fuel : nat) (Γ Γ' : gmap string ty)
    (s : stmt) (h h' : heap val) (env' : envref) :
  stmt_type Γ s Γ' → environment h l → env_has_types Γ h l →
  evaluate_s fuel s h (EnvRef l) = Ok (env', h') →
  env' = EnvRef l
  ∧ ∃ k, ∀ fuel', (k ≤ fuel')%nat →
      run fuel' {| statement := s; env := EnvRef l |} h
      = Ok ({| statement := DoNothing; env := EnvRef l |}, h').
Proof.
  intros Hty Henv Htypes Hev.
  destruct (typed_evaluate_s_steps l fuel Γ Γ' s Hty h env' h' Henv Htypes
              Hev) as (-> & _ & _ & k & Hk).
  split; [done|]. exists k.
  by destruct (steps_run k _ _ _ _ Hk eq_refl).
Qed.

Lemma evaluate_s_is_run_witness :
  evaluate_s 3 sample_while (at_1 {[ x := Number (PNum 1) ]}) (EnvRef 1)
  = Ok (EnvRef 1, at_1 {[ x := Number (PNum 9) ]})
  ∧ EnvRef 1 = EnvRef 1
  ∧ ∃ k, ∀ fuel', (k ≤ fuel')%nat →
      run fuel' {| statement := sample_while; env := EnvRef 1 |}
        (at_1 {[ x := Number (PNum 1) ]})
      = Ok ({| statement := DoNothing; env := EnvRef 1 |},
            at_1 {[ x := Number (PNum 9) ]}).
Proof.
  assert (Hev : evaluate_s 3 sample_while (at_1 {[ x := Number (PNum 1) ]})
                  (EnvRef 1)
                = Ok (EnvRef 1, at_1 {[ x := Number (PNum 9) ]}))
    by (vm_compute; reflexivity).
  split; [exact Hev|].
  apply (evaluate_s_is_run 1 3 {[ x := TNumber ]} {[ x := TNumber ]}
           sample_while (at_1 {[ x := Number (PNum 1) ]}) _ (EnvRef 1)).
  - apply T_While; [repeat constructor|].
    apply (T_Sub _ {[ x := TNumber ]} (<[x := TNumber]> {[ x := TNumber ]}));
      [done| |by rewrite insert_singleton].
    repeat constructor.
  - unfold environment. apply (bool_decide_unpack _). vm_compute. exact I.
  - unfold env_has_types. apply (bool_decide_unpack _). vm_compute. exact I.
  - exact Hev.
Defined.

(** ** Statements without loops: the machine stops *)

Lemma reduce_operands_reductions (h : heap val) (env : envref)
    (node : val → val → val) (result : prim → prim → val) (l r e' : val) :
  (∀ a b, reductions (result a b) = 0%nat) →
  (∀ l' r', reductions (node l' r') = S (reductions l' + reductions r')) →
  (∀ l', reduce h env l = Ok l' → reductions l = S (reductions l')) →
  (∀ r', reduce h env r = Ok r' → reductions r = S (reductions r')) →
  reduce_operands (reduce h env) node result l r = Ok e' →
  S (reductions l + reductions r) = S (reductions e').
Proof.
  intros Hresult Hnode IHl IHr Hred. unfold reduce_operands in Hred.
  bind_inv Hred as [|] Hl.
  - bind_inv Hred as l' Hl'. simplify_eq. rewrite Hnode, (IHl _ Hl'). lia.
  - apply irreducible_is_literal, literal_reductions in Hl.
    bind_inv Hred as [|] Hr.
    + bind_inv Hred as r' Hr'. simplify_eq.
      rewrite Hnode, (IHr _ Hr'). lia.
    + apply irreducible_is_literal, literal_reductions in Hr.
      bind_inv Hred as a Ha. bind_inv Hred as b Hb. simplify_eq.
      rewrite Hresult. lia.
Qed.

(** Under an environment of literals, each [reduce] that returns takes
    one reduction off the expression; no typing is assumed. *)
Lemma reduce_reductions (h : heap val) (l : loc) (e e' : val) :
  environment h l → reduce h (EnvRef l) e = Ok e' →
  reductions e = S (reductions e').
Proof.
  intros Henv. revert e'.
  induction e as [p|p|p|name|e1 IH1 e2 IH2|e1 IH1 e2 IH2|e1 IH1 e2 IH2];
    intros e' Hred; try done.
  - simpl in Hred. simplify_eq. simpl.
    destruct (environment_lookup h l name Henv) as [->|Hlit]; [done|].
    by rewrite (literal_reductions _ Hlit).
  - by apply (reduce_operands_reductions h (EnvRef l) Add_
                (λ a b, Number (js_add a b)) e1 e2 e').
  - by apply (reduce_operands_reductions h (EnvRef l) Multiply
                (λ a b, Number (js_mul a b)) e1 e2 e').
  - by apply (reduce_operands_reductions h (EnvRef l) LessThan
                (λ a b, Boolean (js_lt a b)) e1 e2 e').
Qed.

Lemma reduce_terminates (h : heap val) (env : envref) (e : val) :
  reduce h env e ≠ OutOfFuel.
Proof.
  induction e as [p|p|p|name|e1 IH1 e2 IH2|e1 IH1 e2 IH2|e1 IH1 e2 IH2];
    simpl; try done; try (by destruct env);
    unfold reduce_operands;
    (destruct e1 as [[]| | | | | |]; simpl in *; try done;
     try (by destruct env);
     try (match goal with
          | |- context [reduce_operands ?f ?n ?r ?a ?b] =>
              by destruct (reduce_operands f n r a b)
          end));
    (destruct e2 as [[]| | | | | |]; simpl in *; try done;
     try (by destruct env);
     try (match goal with
          | |- context [reduce_operands ?f ?n ?r ?a ?b] =>
              by destruct (reduce_operands f n r a b)
          end)).
Qed.

Lemma reduce_s_terminates (h : heap val) (env : envref) (s : stmt) :
  reduce_s h env s ≠ OutOfFuel.
Proof.
  revert h env.
  induction s as [|name e|c a IHa b IHb|a IHa b IHb|c b IHb];
    intros h env; try done.
  - pose proof (reduce_terminates h env e) as He.
    destruct e as [[]| | | | | |]; simpl in *; try done;
      try (by destruct env);
      match goal with
      | |- context [mbind _ ?m] => by destruct m
      end.
  - pose proof (reduce_terminates h env c) as Hc.
    destruct c as [[]| | | | | |]; simpl in *; try done;
      try (by destruct env);
      try (match goal with
           | |- context [strict_eq_true ?p] =>
               by destruct (strict_eq_true p), (strict_eq_false p)
           end);
      match goal with
      | |- context [mbind _ ?m] => by destruct m
      end.
  - destruct (decide (a = DoNothing)) as [->|Hne]; [done|].
    rewrite reduce_s_Sequence by done.
    specialize (IHa h env).
    by destruct (reduce_s h env a) as [[[[]|]]| |].
Qed.

(** One step on a statement without loops lowers [step_bound]. *)
Lemma loop_free_reduce_s (l : loc) (s : stmt) :
  ∀ (h h' : heap val) (s' : stmt) (env' : envref),
    environment h l → loop_free s = true →
    reduce_s h (EnvRef l) s = Ok (Some (s', env'), h') →
    loop_free s' = true ∧ (step_bound s' < step_bound s)%nat.
Proof.
  induction s as [|name e|c a IHa b IHb|a IHa b IHb|c b IHb];
    intros h h' s' env' Henv Hfree Hred; try done.
  - simpl in Hred. bind_inv Hred as [|] Hb.
    + bind_inv Hred as e1 He1. simplify_eq. split; [done|]. simpl.
      rewrite (reduce_reductions _ _ _ _ Henv He1). lia.
    + unfold merge in Hred. simpl in Hred. simplify_eq. split; [done|].
      simpl. lia.
  - simpl in Hfree. apply andb_prop in Hfree as [Ha Hb'].
    simpl in Hred. bind_inv Hred as [|] Hb.
    + bind_inv Hred as c1 Hc1. simplify_eq. split.
      * simpl. by rewrite Ha, Hb'.
      * simpl. rewrite (reduce_reductions _ _ _ _ Henv Hc1). lia.
    + bind_inv Hred as p Hp.
      destruct (strict_eq_true p); [|destruct (strict_eq_false p)];
        simplify_eq; (split; [done|]); simpl; lia.
  - simpl in Hfree. apply andb_prop in Hfree as [Ha Hb'].
    destruct (decide (a = DoNothing)) as [->|Hne].
    + simpl in Hred. simplify_eq. split; [done|]. simpl. lia.
    + rewrite reduce_s_Sequence in Hred by done.
      bind_inv Hred as [[[a' env1]|] h1] Hreda; [|done]. simplify_eq.
      destruct (IHa _ _ _ _ Henv Ha Hreda) as [Ha' Hlt]. split.
      * simpl. by rewrite Ha', Hb'.
      * simpl. lia.
Qed.

(** X12: on a statement without [While], under an environment of literal
    nodes, the machine's run stops within [step_bound] iterations: it
    returns or throws, well typed or not. *)
Theorem loop_free_run_stops (l : loc) (fuel : nat) :
  ∀ (s : stmt) (h : heap val),
    environment h l → loop_free s = true → (step_bound s ≤ fuel)%nat →
    run fuel {| statement := s; env := EnvRef l |} h ≠ OutOfFuel.
Proof.
  induction fuel as [|fuel IH]; intros s h Henv Hfree Hfuel.
  - destruct s; simpl in *; try done; lia.
  - destruct (decide (s = DoNothing)) as [->|Hne]; [done|].
    assert (Hrun : run (S fuel) {| statement := s; env := EnvRef l |} h
                   = '(m', h') ← step {| statement := s; env := EnvRef l |} h;
                     run fuel m' h') by (by destruct s).
    rewrite Hrun. unfold step. cbn [statement env].
    pose proof (reduce_s_terminates h (EnvRef l) s) as Hterm.
    destruct (reduce_s h (EnvRef l) s) as [[[[s' env']|] h']| |] eqn:Hred;
      simpl; try done.
    destruct (reduce_s_preserves_evaluate l s _ _ _ _ Henv Hred)
      as (-> & Henv' & _).
    destruct (loop_free_reduce_s l s _ _ _ _ Henv Hfree Hred) as [Hfree' Hlt].
    apply IH; [done..|lia].
Qed.

Lemma loop_free_run_stops_witness :
  environment (at_1 ∅) 1 ∧ loop_free sample_sequence = true
  ∧ (step_bound sample_sequence ≤ 8)%nat
  ∧ run 8 {| statement := sample_sequence; env := EnvRef 1 |} (at_1 ∅)
    ≠ OutOfFuel.
Proof.
  assert (Henv : environment (at_1 ∅) 1).
  { unfold environment. apply (bool_decide_unpack _). vm_compute. exact I. }
  assert (Hle : (step_bound sample_sequence ≤ 8)%nat) by (vm_compute; lia).
  split_and!; [done..|].
  exact (loop_free_run_stops 1 8 sample_sequence (at_1 ∅) Henv eq_refl Hle).
Defined.

(** ** Display *)

Example toString_sample_while :
  toString_s sample_while = "while (x < 5) { x = x * 3 }".
Proof. vm_compute. reflexivity. Qed.

Example inspect_sample_assign : inspect_s sample_assign = "«x = x + 1»".
Proof. vm_compute. reflexivity. Qed.

Example toString_sample_if :
  toString_s sample_if = "if (x) { y = 1 } else { y = 2 }".
Proof. vm_compute. reflexivity. Qed.

Lemma append_assoc (a b c : string) : (a +:+ b) +:+ c = a +:+ (b +:+ c).
Proof.
  induction a as [|ch a IH]; [done|].
  change (String ch ((a +:+ b) +:+ c) = String ch (a +:+ (b +:+ c))).
  by rewrite IH.
Qed.

(** X13: [toString] writes no parentheses, so it does not tell how a
    tree is grouped: [(a + b) * c] reads as [a + b * c] does, and
    [(a * b) + c] as [a * (b + c)]; yet such trees evaluate
    differently. *)
Theorem toString_forgets_grouping (a b c : val) :
  toString (Multiply (Add_ a b) c) = toString (Add_ a (Multiply b c))
  ∧ toString (Add_ (Multiply a b) c) = toString (Multiply a (Add_ b c))
  ∧ (∀ h env,
       evaluate h env
         (Multiply (Add_ (Number (PNum 1)) (Number (PNum 2)))
            (Number (PNum 3)))
       = Ok (Number (PNum 9))
       ∧ evaluate h env
           (Add_ (Number (PNum 1))
              (Multiply (Number (PNum 2)) (Number (PNum 3))))
         = Ok (Number (PNum 7))).
Proof.
  split_and!.
  - simpl. by rewrite !append_assoc.
  - simpl. by rewrite !append_assoc.
  - done.
Qed.

(** ** An unbound variable as condition *)

(** X14: when [z] is not bound, and is not a name inherited from
    [Object.prototype], [If(Variable(z), a, b)] and
    [While(Variable(z), b)] make [evaluate] throw a [TypeError] (it reads
    [value] of [undefined]); the machine throws on its second step on the
    [If] and on its third on the [While], which it first unrolls.  The
    compiled code, for statements whose names are ASCII identifier names
    other than [__proto__], does not throw on the condition: [undefined]
    counts as false, so the compiled [If] runs the alternative and the
    compiled [While] returns at once. *)
Theorem unbound_condition (h : heap val) (hp : heap prim) (l : loc)
    (z : string) (a b : stmt) :
  own_properties h l !! z = None → inherited z = false →
  ((∀ fuel,
      evaluate_s fuel (If (Variable_ z) a b) h (EnvRef l) = Throw TypeError)
   ∧ (∀ fuel,
        evaluate_s (S fuel) (While (Variable_ z) b) h (EnvRef l)
        = Throw TypeError)
   ∧ run 1 {| statement := If (Variable_ z) a b; env := EnvRef l |} h
     = OutOfFuel
   ∧ (∀ fuel,
        run (S (S fuel))
          {| statement := If (Variable_ z) a b; env := EnvRef l |} h
        = Throw TypeError)
   ∧ run 2 {| statement := While (Variable_ z) b; env := EnvRef l |} h
     = OutOfFuel
   ∧ (∀ fuel,
        run (S (S (S fuel)))
          {| statement := While (Variable_ z) b; env := EnvRef l |} h
        = Throw TypeError))
  ∧ (∀ fa fb,
       own_properties hp l !! z = None → plain_name z = true →
       identifier_names_s a = true → identifier_names_s b = true →
       toJs_s a = Ok fa → toJs_s b = Ok fb →
       (∀ fuel,
          compiled_s (If (Variable_ z) a b) fuel hp (EnvRef l)
          = fb fuel hp (EnvRef l))
       ∧ (∀ fuel,
            compiled_s (While (Variable_ z) b) (S fuel) hp (EnvRef l)
            = Ok (EnvRef l, hp))).
Proof.
  intros Hz _.
  assert (H1 : ∀ c d,
            step {| statement := If (Variable_ z) c d; env := EnvRef l |} h
            = Ok ({| statement := If undefined c d; env := EnvRef l |}, h)).
  { intros c d. unfold step. simpl. by rewrite Hz. }
  assert (Hshort : ∀ c d,
            run 1 {| statement := If (Variable_ z) c d; env := EnvRef l |} h
            = OutOfFuel).
  { intros c d.
    change (run 1 {| statement := If (Variable_ z) c d; env := EnvRef l |} h)
      with ('(m', h') ← step {| statement := If (Variable_ z) c d;
                                env := EnvRef l |} h;
            run 0 m' h').
    by rewrite H1. }
  assert (Hif : ∀ c d fuel,
            run (S (S fuel))
              {| statement := If (Variable_ z) c d; env := EnvRef l |} h
            = Throw TypeError).
  { intros c d fuel.
    change (run (S (S fuel))
              {| statement := If (Variable_ z) c d; env := EnvRef l |} h)
      with ('(m', h') ← step {| statement := If (Variable_ z) c d;
                                env := EnvRef l |} h;
            run (S fuel) m' h').
    by rewrite H1. }
  split.
  - split_and!.
    + intros fuel. simpl. by rewrite Hz.
    + intros fuel. simpl. by rewrite Hz.
    + apply Hshort.
    + apply Hif.
    + change (run 2 {| statement := While (Variable_ z) b; env := EnvRef l |}
                h)
        with (run 1 {| statement := If (Variable_ z)
                                      (Sequence b (While (Variable_ z) b))
                                      DoNothing;
                       env := EnvRef l |} h).
      apply Hshort.
    + intros fuel.
      change (run (S (S (S fuel)))
                {| statement := While (Variable_ z) b; env := EnvRef l |} h)
        with (run (S (S fuel))
                {| statement := If (Variable_ z)
                                  (Sequence b (While (Variable_ z) b))
                                  DoNothing;
                   env := EnvRef l |} h).
      apply Hif.
  - intros fa fb Hzp _ _ _ Hfa Hfb. split; intros fuel.
    + unfold compiled_s. simpl. rewrite Hfa, Hfb. simpl. by rewrite Hzp.
    + unfold compiled_s. simpl. rewrite Hfb. simpl. by rewrite Hzp.
Qed.

Lemma unbound_condition_witness :
  own_properties (at_1 (∅ : gmap string val)) 1 !! z = None
  ∧ inherited z = false
  ∧ own_properties (at_1 (∅ : gmap string prim)) 1 !! z = None
  ∧ plain_name z = true
  ∧ identifier_names_s sample_assign = true
  ∧ (∀ fuel,
       evaluate_s fuel (If (Variable_ z) sample_assign sample_assign)
         (at_1 ∅) (EnvRef 1)
       = Throw TypeError)
  ∧ (∀ fuel,
       run (S (S (S fuel)))
         {| statement := While (Variable_ z) sample_assign; env := EnvRef 1 |}
         (at_1 ∅)
       = Throw TypeError)
  ∧ (∀ fuel,
       compiled_s (While (Variable_ z) sample_assign) (S fuel) (at_1 ∅)
         (EnvRef 1)
       = Ok (EnvRef 1, at_1 ∅)).
Proof.
  pose proof (unbound_condition (at_1 ∅) (at_1 ∅) 1 z sample_assign
                sample_assign eq_refl eq_refl)
    as [(He & _ & _ & _ & _ & Hm) Hc].
  destruct (Hc _ _ eq_refl eq_refl eq_refl eq_refl eq_refl eq_refl)
    as (_ & Hw).
  split_and!; [reflexivity..|exact He|exact Hm|exact Hw].
Defined.
